(** * goftfy: the encoding-repair engine and its pipeline

    A shallow embedding of the Go package [goftfy] (files [goftfy.go],
    [fixes.go], [encoding.go]).  A Go [string] is a sequence of bytes; it is
    modelled as [list Z], one number per byte.  A [rune] is a [Z].

    The first two modules embed the parts of Go's standard library the package
    calls: [unicode/utf8] together with the [for _, r := range s] loop, and the
    few functions of [strings] that are used. *)

From Stdlib Require Import String Ascii.
From Stdlib Require Import ZArith List Bool Lia Permutation.
Import ListNotations.
Open Scope Z_scope.

(** A Go string: its bytes. *)
Definition gostring := list Z.

(** The bytes of a literal, as Go stores it (UTF-8). *)
Definition go (s : String.string) : gostring :=
  map (fun a => Z.of_nat (nat_of_ascii a)) (list_ascii_of_string s).
Arguments go s%_string.

(** Equality of byte strings, Go's [==] on strings. *)
Fixpoint streq (a b : gostring) : bool :=
  match a, b with
  | [], [] => true
  | x :: a', y :: b' => (x =? y) && streq a' b'
  | _, _ => false
  end.

(* ================================================================== *)
(** ** Go's [unicode/utf8] *)

Module utf8.

Definition RuneError : Z := 0xFFFD.
Definition MaxRune : Z := 0x10FFFF.
Definition RuneSelf : Z := 0x80.
Definition UTFMax : nat := 4.

(** A continuation byte, [locb <= b <= hicb]. *)
Definition isCont (b : Z) : bool := (0x80 <=? b) && (b <=? 0xBF).

(** The surrogate range, not encodable. *)
Definition isSurrogate (r : Z) : bool := (0xD800 <=? r) && (r <=? 0xDFFF).

(** [ValidRune]: a Unicode scalar value. *)
Definition ValidRune (r : Z) : bool :=
  ((0 <=? r) && (r <? 0xD800)) || ((0xDFFF <? r) && (r <=? MaxRune)).

(** The accept range of the second byte, which depends on the lead byte
    ([acceptRanges] in the Go source). *)
Definition acceptLo (p0 : Z) : Z :=
  if p0 =? 0xE0 then 0xA0 else if p0 =? 0xF0 then 0x90 else 0x80.
Definition acceptHi (p0 : Z) : Z :=
  if p0 =? 0xED then 0x9F else if p0 =? 0xF4 then 0x8F else 0xBF.
Definition accept (p0 b1 : Z) : bool := (acceptLo p0 <=? b1) && (b1 <=? acceptHi p0).

(** [DecodeRune] / [DecodeRuneInString]: the first rune of [p] and its width
    in bytes.  An empty input gives [(RuneError, 0)], an invalid encoding
    [(RuneError, 1)].  The masks and shifts of the Go source are written as
    the subtractions and multiplications they amount to once the range of
    each byte has been checked. *)
Definition DecodeRune (p : gostring) : Z * nat :=
  match p with
  | [] => (RuneError, 0%nat)
  | p0 :: t0 =>
    if (0 <=? p0) && (p0 <? RuneSelf) then (p0, 1%nat)
    else if (0xC2 <=? p0) && (p0 <=? 0xDF) then
      match t0 with
      | b1 :: _ =>
        if isCont b1 then ((p0 - 0xC0) * 64 + (b1 - 0x80), 2%nat)
        else (RuneError, 1%nat)
      | _ => (RuneError, 1%nat)
      end
    else if (0xE0 <=? p0) && (p0 <=? 0xEF) then
      match t0 with
      | b1 :: b2 :: _ =>
        if accept p0 b1 && isCont b2
        then ((p0 - 0xE0) * 4096 + (b1 - 0x80) * 64 + (b2 - 0x80), 3%nat)
        else (RuneError, 1%nat)
      | _ => (RuneError, 1%nat)
      end
    else if (0xF0 <=? p0) && (p0 <=? 0xF4) then
      match t0 with
      | b1 :: b2 :: b3 :: _ =>
        if accept p0 b1 && isCont b2 && isCont b3
        then ((p0 - 0xF0) * 262144 + (b1 - 0x80) * 4096
              + (b2 - 0x80) * 64 + (b3 - 0x80), 4%nat)
        else (RuneError, 1%nat)
      | _ => (RuneError, 1%nat)
      end
    else (RuneError, 1%nat)
  end.

(** The cases of [DecodeRune] as a relation between the input, the rune and
    the width. *)
Inductive DecodeSpec : gostring -> Z -> nat -> Prop :=
| DecEmpty : DecodeSpec [] RuneError 0
| DecError p0 t : DecodeSpec (p0 :: t) RuneError 1
| Dec1 p0 t : 0 <= p0 < 0x80 -> DecodeSpec (p0 :: t) p0 1
| Dec2 p0 b1 t :
    0xC2 <= p0 <= 0xDF -> 0x80 <= b1 <= 0xBF ->
    DecodeSpec (p0 :: b1 :: t) ((p0 - 0xC0) * 64 + (b1 - 0x80)) 2
| Dec3 p0 b1 b2 t :
    0xE0 <= p0 <= 0xEF -> 0x80 <= b1 <= 0xBF -> 0x80 <= b2 <= 0xBF ->
    (p0 = 0xE0 -> 0xA0 <= b1) -> (p0 = 0xED -> b1 <= 0x9F) ->
    DecodeSpec (p0 :: b1 :: b2 :: t)
               ((p0 - 0xE0) * 4096 + (b1 - 0x80) * 64 + (b2 - 0x80)) 3
| Dec4 p0 b1 b2 b3 t :
    0xF0 <= p0 <= 0xF4 -> 0x80 <= b1 <= 0xBF -> 0x80 <= b2 <= 0xBF ->
    0x80 <= b3 <= 0xBF ->
    (p0 = 0xF0 -> 0x90 <= b1) -> (p0 = 0xF4 -> b1 <= 0x8F) ->
    DecodeSpec (p0 :: b1 :: b2 :: b3 :: t)
               ((p0 - 0xF0) * 262144 + (b1 - 0x80) * 4096
                + (b2 - 0x80) * 64 + (b3 - 0x80)) 4.

Definition enc3 (r : Z) : gostring :=
  [0xE0 + r / 4096; 0x80 + (r / 64) mod 64; 0x80 + r mod 64].
Definition enc4 (r : Z) : gostring :=
  [0xF0 + r / 262144; 0x80 + (r / 4096) mod 64; 0x80 + (r / 64) mod 64;
   0x80 + r mod 64].

(** [EncodeRune] / [AppendRune] / [Builder.WriteRune]: the UTF-8 encoding of
    [r]; a rune out of range or a surrogate is written as [RuneError]. *)
Definition EncodeRune (r : Z) : gostring :=
  if (0 <=? r) && (r <=? 0x7F) then [r]
  else if (0 <=? r) && (r <=? 0x7FF) then [0xC0 + r / 64; 0x80 + r mod 64]
  else if (r <? 0) || (MaxRune <? r) || isSurrogate r then enc3 RuneError
  else if r <=? 0xFFFF then enc3 r
  else enc4 r.

(** The decoding loop shared by [range], [Valid] and [RuneCount]: the runes
    of [s] in order, each with its width.  [fuel] bounds the number of
    iterations; every iteration consumes at least one byte. *)
Fixpoint decodeLoop (fuel : nat) (s : gostring) : list (Z * nat) :=
  match fuel with
  | O => []
  | S f =>
    match s with
    | [] => []
    | _ :: _ => let rw := DecodeRune s in rw :: decodeLoop f (skipn (snd rw) s)
    end
  end.

Definition decodeAll (s : gostring) : list (Z * nat) := decodeLoop (length s) s.

(** [for _, r := range s]: the runes the loop body sees. *)
Definition runes (s : gostring) : list Z := map fst (decodeAll s).

(** Byte offsets of a list of widths, starting at [i]. *)
Fixpoint offsets (i : nat) (rws : list (Z * nat)) : list (nat * Z) :=
  match rws with
  | [] => []
  | (r, w) :: rest => (i, r) :: offsets (i + w) rest
  end.

(** [for i, r := range s]: byte index and rune. *)
Definition rangeString (s : gostring) : list (nat * Z) := offsets 0 (decodeAll s).

(** One step of the loop is an encoding error. *)
Definition isError (rw : Z * nat) : bool := (fst rw =? RuneError) && Nat.eqb (snd rw) 1.

(** [Valid] / [ValidString]. *)
Definition Valid (s : gostring) : bool := forallb (fun rw => negb (isError rw)) (decodeAll s).

(** [RuneCountInString]. *)
Definition RuneCountInString (s : gostring) : Z := Z.of_nat (List.length (decodeAll s)).

(** [string(rs)] for a slice of runes, and what a [Builder] holds after
    [WriteRune] on each of them. *)
Definition encodeAll (rs : list Z) : gostring := flat_map EncodeRune rs.

End utf8.

(* ================================================================== *)
(** ** Go's [strings], the functions the package calls *)

Module strings.

Fixpoint HasPrefix (s prefix : gostring) : bool :=
  match prefix, s with
  | [], _ => true
  | p :: prefix', c :: s' => (c =? p) && HasPrefix s' prefix'
  | _ :: _, [] => false
  end.

(** [Index]: the byte index of the first instance of [substr] in [s]; Go's
    [-1] is [None]. *)
Fixpoint Index (s substr : gostring) : option nat :=
  match s with
  | [] => if HasPrefix [] substr then Some 0%nat else None
  | _ :: s' =>
    if HasPrefix s substr then Some 0%nat else option_map S (Index s' substr)
  end.

Definition Contains (s substr : gostring) : bool :=
  match Index s substr with Some _ => true | None => false end.

(** The loop of [Replace] for a non-empty [old]: copy up to the next
    instance, write [new], continue after the instance.  Go runs it
    [Count(s, old)] times; here it stops when [Index] finds nothing. *)
Fixpoint replaceLoop (fuel : nat) (s old new : gostring) : gostring :=
  match fuel with
  | O => s
  | S f =>
    match Index s old with
    | None => s
    | Some j =>
      firstn j s ++ new ++ replaceLoop f (skipn (j + length old) s) old new
    end
  end.

(** The pieces of [s] cut at the given widths. *)
Fixpoint cut (rws : list (Z * nat)) (s : gostring) : list gostring :=
  match rws with
  | [] => []
  | (_, w) :: rest => firstn w s :: cut rest (skipn w s)
  end.

(** [ReplaceAll(s, old, new)].  With an empty [old], [new] is written before
    the string and after each rune. *)
Definition ReplaceAll (s old new : gostring) : gostring :=
  if streq old new then s
  else match old with
       | [] => new ++ flat_map (fun c => c ++ new) (cut (utf8.decodeAll s) s)
       | _ :: _ => replaceLoop (length s) s old new
       end.

(** [NewReplacer(pairs...).Replace]: at each position the first pair, in
    argument order, whose old string starts there is applied; matches do not
    overlap.  (Pairs with an empty old string are not modelled; the package
    has none.) *)
Fixpoint firstMatch (pairs : list (gostring * gostring)) (s : gostring)
  : option (gostring * gostring) :=
  match pairs with
  | [] => None
  | (old, new) :: rest =>
    if HasPrefix s old then Some (old, new) else firstMatch rest s
  end.

Fixpoint replacerLoop (fuel : nat) (pairs : list (gostring * gostring))
  (s : gostring) : gostring :=
  match fuel with
  | O => s
  | S f =>
    match s with
    | [] => []
    | c :: s' =>
      match firstMatch pairs s with
      | Some (old, new) =>
        new ++ replacerLoop f pairs (skipn (Nat.max 1 (length old)) s)
      | None => c :: replacerLoop f pairs s'
      end
    end
  end.

Definition Replace (pairs : list (gostring * gostring)) (s : gostring) : gostring :=
  replacerLoop (length s) pairs s.

(** [ToUpper] and [TrimSpace] on ASCII, the fast path of the Go functions
    (every form name the package passes is ASCII; bytes of 0x80 and above
    are left as they are). *)
Definition ToUpper (s : gostring) : gostring :=
  map (fun c => if (0x61 <=? c) && (c <=? 0x7A) then c - 32 else c) s.

Definition isSpace (c : Z) : bool :=
  (c =? 0x09) || (c =? 0x0A) || (c =? 0x0B) || (c =? 0x0C) || (c =? 0x0D)
  || (c =? 0x20).

Fixpoint trimLeft (s : gostring) : gostring :=
  match s with
  | c :: s' => if isSpace c then trimLeft s' else s
  | [] => []
  end.

Definition TrimSpace (s : gostring) : gostring :=
  rev (trimLeft (rev (trimLeft s))).

(** [Join(elems, sep)]. *)
Fixpoint Join (elems : list gostring) (sep : gostring) : gostring :=
  match elems with
  | [] => []
  | a :: rest =>
    match rest with
    | [] => a
    | _ :: _ => a ++ sep ++ Join rest sep
    end
  end.

(** The loop of [Split] for a non-empty [sep]: the piece before the next
    instance, then the pieces of what follows the instance; the last piece is
    what is left when [Index] finds nothing. *)
Fixpoint splitLoop (fuel : nat) (s sep : gostring) : list gostring :=
  match fuel with
  | O => [s]
  | S f =>
    match Index s sep with
    | None => [s]
    | Some m => firstn m s :: splitLoop f (skipn (m + length sep) s) sep
    end
  end.

(** [Split(s, sep)].  With an empty [sep] the string is cut after each UTF-8
    sequence. *)
Definition Split (s sep : gostring) : list gostring :=
  match sep with
  | [] => cut (utf8.decodeAll s) s
  | _ :: _ => splitLoop (length s) s sep
  end.

End strings.

(* ================================================================== *)
(** ** The two drafts of the detector *)

(** [fixes.go]: the scan takes the byte index [i] of the range loop and
    reads the byte [text[i+1]]. *)
Module fixes_go.

Definition signature (text : gostring) (ir : nat * Z) : bool :=
  let (i, r) := ir in
  ((r =? 0xC3) && (i + 1 <? length text)%nat &&
   (let next := nth (i + 1) text 0 in
    ((0x80 <=? next) && (next <=? 0xBF))
    || (next =? 0xA9) || (next =? 0xAE) || (next =? 0x2122)
    || (next =? 0xB0) || (next =? 0xB1) || (next =? 0xB2)
    || (next =? 0xB3) || (next =? 0xBC) || (next =? 0xBD)))
  || (r =? 0xE2).

Definition looksLikeMojibake (text : gostring) : bool :=
  existsb (signature text) (utf8.rangeString text).

(** [CommonMojibakePatterns]: a Go map, here its entries.  The third
    character of the em dash and en dash keys is U+201D and U+201C, the
    Windows-1252 reading of the bytes 0x94 and 0x93. *)
Definition CommonMojibakePatterns : list (gostring * gostring) :=
  [ (go "SÃ£o", go "São");
    (go "clichÃ©", go "cliché");
    (go "cafÃ©", go "café");
    (go "rÃ©sumÃ©", go "résumé");
    (go "naÃ¯ve", go "naïve");
    (go "â€™", utf8.EncodeRune 0x2019);
    (go "â€œ", utf8.EncodeRune 0x201C);
    (go "â€", utf8.EncodeRune 0x201D);
    (go "â€”", utf8.EncodeRune 0x2014);
    (go "â€“", utf8.EncodeRune 0x2013);
    (go "Â·", go "·");
    (go "Â©", go "©");
    (go "Â®", go "®");
    (go "â„¢", go "™") ].

(** The body of [QuickFix] for one iteration order of the map. *)
Definition QuickFixIn (order : list (gostring * gostring)) (text : gostring)
  : gostring :=
  fold_left (fun t p => strings.ReplaceAll t (fst p) (snd p)) order text.

(** [QuickFix] ranges over the map; Go leaves the order of a map range
    unspecified, so a call may return the result of any order. *)
Definition QuickFix (text out : gostring) : Prop :=
  exists order, Permutation order CommonMojibakePatterns
                /\ out = QuickFixIn order text.

End fixes_go.

(** [encoding.go]: the scan converts the text to runes first and reads the
    next rune.  The non-ASCII literals of this file are stored misread, each
    byte of their UTF-8 form written as a character of a Cyrillic code page;
    they are given here as the text they stand for (U+00C3, U+00E2 and
    U+00C2 in the scan, the same keys as in [fixes.go] in the table). *)
Module encoding_go.

Definition isSecond (next : Z) : bool :=
  (next =? 0xA9) || (next =? 0xAE) || (next =? 0x2122)
  || (next =? 0xB0) || (next =? 0xB1) || (next =? 0xB2)
  || (next =? 0xB3) || (next =? 0xBC) || (next =? 0xBD).

Fixpoint scan (rs : list Z) : bool :=
  match rs with
  | [] => false
  | r :: rest =>
    ((r =? 0xC3) &&
     match rest with
     | next :: _ => ((0x80 <=? next) && (next <=? 0xBF)) || isSecond next
     | [] => false
     end)
    || (r =? 0xE2) || (r =? 0xC2)
    || scan rest
  end.

Definition looksLikeMojibake (text : gostring) : bool := scan (utf8.runes text).

Definition commonMojibakePatternsOrdered : list (gostring * gostring) :=
  [ (go "SÃ£o", go "São");
    (go "cafÃ©", go "café");
    (go "clichÃ©", go "cliché");
    (go "rÃ©sumÃ©", go "résumé");
    (go "naÃ¯ve", go "naïve");
    (go "â€™", utf8.EncodeRune 0x2019);
    (go "â€˜", utf8.EncodeRune 0x2018);
    (go "â€œ", utf8.EncodeRune 0x201C);
    (go "â€" ++ utf8.EncodeRune 0xFFFD, utf8.EncodeRune 0x201D);
    (go "â€”", utf8.EncodeRune 0x2014);
    (go "â€“", utf8.EncodeRune 0x2013);
    (go "â€¦", utf8.EncodeRune 0x2026);
    (go "Â·", go "·");
    (go "Â©", go "©");
    (go "Â®", go "®");
    (go "â„¢", go "™") ].

(** [QuickFix] ranges over the ordered slice. *)
Definition QuickFix (text : gostring) : gostring :=
  fold_left (fun t p => strings.ReplaceAll t (fst p) (snd p))
            commonMojibakePatternsOrdered text.

End encoding_go.

(* ================================================================== *)
(** ** The package [goftfy] *)

(** [golang.org/x/text/unicode/norm]: the four normalization forms. *)
Inductive Form : Type := NFC | NFD | NFKC | NFKD.

(** [Options] controls which fixes are applied. *)
Record Options : Type := mkOptions {
  FixEncoding : bool;
  FixHTMLEntities : bool;
  FixLineBreaks : bool;
  FixSurrogates : bool;
  FixControlChars : bool;
  FixCurlyQuotes : bool;
  NormalizationForm : gostring;
  RemoveTerminalEscapes : bool
}.

Definition DefaultOptions : Options := {|
  FixEncoding := true;
  FixHTMLEntities := true;
  FixLineBreaks := true;
  FixSurrogates := true;
  FixControlChars := true;
  FixCurlyQuotes := false;
  NormalizationForm := go "NFC";
  RemoveTerminalEscapes := false
|}.

(** A [strings.Builder] (or a byte slice grown with [append]) filled by a
    range loop: each rune appends the bytes [f r]. *)
Definition build (f : Z -> gostring) (rs : list Z) : gostring :=
  fold_left (fun b r => b ++ f r) rs [].

(** [decodeMojibake], first half: the raw bytes.  A rune below 0x100 is
    converted with [byte(r)], any other is appended in UTF-8. *)
Definition rawBytes (text : gostring) : gostring :=
  build (fun r => if r <? 0x100 then [r mod 256] else utf8.EncodeRune r)
        (utf8.runes text).

(** The byte reconstruction in the words of the specification: a code point
    below 256 contributes its scalar value as a single byte, any other its
    UTF-8 encoding. *)
Definition reconstruction (text : gostring) : gostring :=
  flat_map (fun r => if r <? 256 then [r] else utf8.EncodeRune r)
           (utf8.runes text).

Definition countNonASCII (s : gostring) : Z :=
  fold_left (fun count r => if 127 <? r then count + 1 else count)
            (utf8.runes s) 0.

(** [decodeMojibake] reverses the Latin-1 misreading of UTF-8. *)
Definition decodeMojibake (text : gostring) : gostring :=
  let raw := rawBytes text in
  if utf8.Valid raw then
    if countNonASCII raw <? countNonASCII text then raw else text
  else text.

Definition ReplacementChar : Z := 0xFFFD.

Definition fixSurrogates (text : gostring) : gostring :=
  build (fun r => if (0xD800 <=? r) && (r <=? 0xDFFF)
                  then utf8.EncodeRune ReplacementChar
                  else utf8.EncodeRune r)
        (utf8.runes text).

Definition fixControlChars (text : gostring) : gostring :=
  build (fun r => if (r =? 0x09) || (r =? 0x0A) || (r =? 0x0D)
                  then utf8.EncodeRune r
                  else if (r <? 0x20) || ((0x7F <=? r) && (r <=? 0x9F))
                       then []
                       else utf8.EncodeRune r)
        (utf8.runes text).

(** The runes [fixControlChars] drops: C0 other than tab, newline and
    carriage return, DEL and C1. *)
Definition stripped (r : Z) : bool :=
  negb ((r =? 0x09) || (r =? 0x0A) || (r =? 0x0D))
  && ((r <? 0x20) || ((0x7F <=? r) && (r <=? 0x9F))).

Definition fixLineBreaks (text : gostring) : gostring :=
  let text := strings.ReplaceAll text [0x0D; 0x0A] [0x0A] in
  let text := strings.ReplaceAll text [0x0D] [0x0A] in
  let text := strings.ReplaceAll text (utf8.EncodeRune 0x2028) [0x0A] in
  let text := strings.ReplaceAll text (utf8.EncodeRune 0x2029) [0x0A] in
  text.

(** [ansiEscape], the expression
    [\x1b\[[0-9;]*[a-zA-Z]|\x1b[^[\\]]: the length of its match at the head
    of [s], if it matches there. *)
Fixpoint skipParams (s : gostring) : gostring :=
  match s with
  | c :: s' =>
    if ((0x30 <=? c) && (c <=? 0x39)) || (c =? 0x3B) then skipParams s' else s
  | [] => []
  end.

Definition isLetter (c : Z) : bool :=
  ((0x61 <=? c) && (c <=? 0x7A)) || ((0x41 <=? c) && (c <=? 0x5A)).

Definition ansiEscape (s : gostring) : option nat :=
  match s with
  | e :: c :: rest =>
    if negb (e =? 0x1B) then None
    else if c =? 0x5B then
      match skipParams rest with
      | l :: after =>
        if isLetter l then Some (length s - length after)%nat else None
      | [] => None
      end
    else if c =? 0x5C then None
    else Some (1 + snd (utf8.DecodeRune (c :: rest)))%nat
  | _ => None
  end.

Fixpoint removeLoop (fuel : nat) (s : gostring) : gostring :=
  match fuel with
  | O => s
  | S f =>
    match s with
    | [] => []
    | c :: s' =>
      match ansiEscape s with
      | Some n => removeLoop f (skipn n s)
      | None => c :: removeLoop f s'
      end
    end
  end.

Definition removeTerminalEscapes (text : gostring) : gostring :=
  removeLoop (length text) text.

Definition curlyQuoteReplacer : list (gostring * gostring) :=
  [ (utf8.EncodeRune 0x2018, go "'"); (utf8.EncodeRune 0x2019, go "'");
    (utf8.EncodeRune 0x201A, go "'"); (utf8.EncodeRune 0x201B, go "'");
    (utf8.EncodeRune 0x201C, [0x22]); (utf8.EncodeRune 0x201D, [0x22]);
    (utf8.EncodeRune 0x201E, [0x22]); (utf8.EncodeRune 0x201F, [0x22]);
    (utf8.EncodeRune 0x2039, go "<"); (utf8.EncodeRune 0x203A, go ">");
    (utf8.EncodeRune 0x00AB, [0x22]); (utf8.EncodeRune 0x00BB, [0x22]) ].

Definition fixCurlyQuotes (text : gostring) : gostring :=
  strings.Replace curlyQuoteReplacer text.

(** ** The analysis file *)

(** [CharInfo] holds information about a Unicode character's context. *)
Record CharInfo : Type := mkCharInfo {
  Rune : Z;
  Category : gostring;
  IsProblematic : bool;
  Suggestion : Z
}.

(** Characters that appear frequently in UTF-8 read as Latin-1. *)
Definition mojibakeIndicators : list Z :=
  [0xC3; 0xE2; 0xC2; 0xEF; 0xC5; 0xC4; 0xD6; 0xDC].

Definition isMojibakeChar (r : Z) : bool :=
  existsb (fun m => r =? m) mojibakeIndicators.

Definition analyzeRune (r : Z) : CharInfo :=
  if (0xD800 <=? r) && (r <=? 0xDFFF)
  then mkCharInfo r (go "surrogate") true 0xFFFD
  else if (0x00 <=? r) && (r <? 0x20)
          && negb (r =? 0x09) && negb (r =? 0x0A) && negb (r =? 0x0D)
  then mkCharInfo r (go "control_C0") true 0
  else if (0x7F <=? r) && (r <=? 0x9F)
  then mkCharInfo r (go "control_C1") true 0
  else if r =? 0xFFFD
  then mkCharInfo r (go "replacement_char") true 0
  else if isMojibakeChar r
  then mkCharInfo r (go "likely_mojibake") true 0
  else mkCharInfo r (go "ok") false 0.

(** [AnalyzeString] returns the analysis of the problematic characters, in
    the order of the text. *)
Definition AnalyzeString (text : gostring) : list CharInfo :=
  fold_left (fun result r =>
               let info := analyzeRune r in
               if IsProblematic info then result ++ [info] else result)
            (utf8.runes text) [].

Definition HasReplacementChars (text : gostring) : bool :=
  strings.Contains text (utf8.EncodeRune 0xFFFD).

Definition HasSurrogates (text : gostring) : bool :=
  existsb (fun r => (0xD800 <=? r) && (r <=? 0xDFFF)) (utf8.runes text).

(** ** Slices and maps of strings *)

(** [dst[i] = x].  The loops below only assign inside the slice; an index
    past the end leaves the list as it is. *)
Fixpoint setAt (i : nat) (x : gostring) (dst : list gostring) : list gostring :=
  match dst, i with
  | [], _ => []
  | _ :: rest, O => x :: rest
  | y :: rest, S j => y :: setAt j x rest
  end.

(** [for i, t := range src { dst[i] = f(t) }]. *)
Definition rangeAssign (f : gostring -> gostring) (src dst : list gostring)
  : list gostring :=
  fold_left (fun acc it => setAt (fst it) (f (snd it)) acc)
            (combine (seq 0 (length src)) src) dst.

(** A [map[string]string]: its entries, with distinct keys. *)
Definition gomap : Type := list (gostring * gostring).

(** [m[k]], with [None] for a missing key. *)
Fixpoint mapLookup (k : gostring) (m : gomap) : option gostring :=
  match m with
  | [] => None
  | (k', v) :: rest => if streq k k' then Some v else mapLookup k rest
  end.

(** [m[k] = v]. *)
Fixpoint mapStore (k v : gostring) (m : gomap) : gomap :=
  match m with
  | [] => [(k, v)]
  | (k', v') :: rest =>
    if streq k k' then (k, v) :: rest else (k', v') :: mapStore k v rest
  end.

(** What is assumed of the two library functions.  [norm.NFC.String]
    returns valid text whose code points are all below U+0300 as it is (such
    text is in normal form C); normalization and entity decoding keep valid
    UTF-8 valid; NFC is idempotent and produces no control, carriage return,
    line separator or paragraph separator code point that its argument does
    not have. *)
Definition NFC_keeps_latin (normString : Form -> gostring -> gostring) : Prop :=
  forall s, utf8.Valid s = true ->
            (forall r, In r (utf8.runes s) -> r < 0x300) ->
            normString NFC s = s.

Definition norm_keeps_Valid (normString : Form -> gostring -> gostring) : Prop :=
  forall f s, utf8.Valid s = true -> utf8.Valid (normString f s) = true.

Definition NFC_idempotent (normString : Form -> gostring -> gostring) : Prop :=
  forall s, utf8.Valid s = true ->
            normString NFC (normString NFC s) = normString NFC s.

Definition NFC_inert (normString : Form -> gostring -> gostring) : Prop :=
  forall s r, utf8.Valid s = true ->
              In r (utf8.runes (normString NFC s)) ->
              stripped r = true \/ r = 0x0D \/ r = 0x2028 \/ r = 0x2029 ->
              In r (utf8.runes s).

Definition Unescape_keeps_Valid (UnescapeString : gostring -> gostring) : Prop :=
  forall s, utf8.Valid s = true -> utf8.Valid (UnescapeString s) = true.

(** The library functions on text they return as it is: a string without
    entity for [html.UnescapeString], a string already in normal form for
    [norm.Form.String]. *)
Definition unescapeNone (s : gostring) : gostring := s.
Definition normStable (f : Form) (s : gostring) : gostring := s.

(** The letter U+00E9 written in UTF-8, misread as Latin-1 and written in
    UTF-8 again, twice over: the runes U+00C3 U+0083 U+00C2 U+00A9. *)
Definition doubleMojibake : gostring :=
  [0xC3; 0x83; 0xC2; 0x83; 0xC3; 0x82; 0xC2; 0xA9].

(* ================================================================== *)
(** ** Proof automation *)

Ltac divmod := Z.div_mod_to_equations; lia.

(** Decide the comparisons of the goal that follow from the linear facts at
    hand, and reduce the conditionals they guard. *)
Ltac cmp_lia :=
  repeat (match goal with
          | |- context [?a <=? ?b] =>
            first [ replace (a <=? b) with true by (symmetry; apply Z.leb_le; lia)
                  | replace (a <=? b) with false by (symmetry; apply Z.leb_gt; lia) ]
          | |- context [?a <? ?b] =>
            first [ replace (a <? b) with true by (symmetry; apply Z.ltb_lt; lia)
                  | replace (a <? b) with false by (symmetry; apply Z.ltb_ge; lia) ]
          | |- context [?a =? ?b] =>
            first [ replace (a =? b) with true by (symmetry; apply Z.eqb_eq; lia)
                  | replace (a =? b) with false by (symmetry; apply Z.eqb_neq; lia) ]
          end; cbn [andb orb negb]).

Ltac unfold_utf8 :=
  unfold utf8.RuneSelf, utf8.isCont, utf8.accept, utf8.acceptLo, utf8.acceptHi,
         utf8.isSurrogate, utf8.MaxRune, utf8.RuneError.

Section Pipeline.

(** The detector: [fixes_go.looksLikeMojibake] or
    [encoding_go.looksLikeMojibake]. *)
Variable looksLikeMojibake : gostring -> bool.

(** [html.UnescapeString] of Go's standard library. *)
Variable UnescapeString : gostring -> gostring.

(** [norm.Form.String] of [golang.org/x/text/unicode/norm]. *)
Variable normString : Form -> gostring -> gostring.

(** [fixEncoding] is the core mojibake fixer. *)
Definition fixEncoding (text : gostring) : gostring :=
  if utf8.Valid text && negb (looksLikeMojibake text) then text
  else
    let result := decodeMojibake text in
    if negb (streq result text) && utf8.Valid result then result else text.

Definition fixHTMLEntities (text : gostring) : gostring :=
  if negb (strings.Contains text (go "&")) then text
  else UnescapeString text.

Definition normalize (text form : gostring) : gostring :=
  let f := strings.ToUpper (strings.TrimSpace form) in
  if streq f (go "NFC") then normString NFC text
  else if streq f (go "NFD") then normString NFD text
  else if streq f (go "NFKC") then normString NFKC text
  else if streq f (go "NFKD") then normString NFKD text
  else text.

(** [FixWithOptions] applies only the selected fixes from [opts]. *)
Definition FixWithOptions (text : gostring) (opts : Options) : gostring :=
  let text := if RemoveTerminalEscapes opts then removeTerminalEscapes text else text in
  let text := if FixSurrogates opts then fixSurrogates text else text in
  let text := if FixEncoding opts then fixEncoding text else text in
  let text := if FixHTMLEntities opts then fixHTMLEntities text else text in
  let text := if FixLineBreaks opts then fixLineBreaks text else text in
  let text := if FixControlChars opts then fixControlChars text else text in
  let text := if FixCurlyQuotes opts then fixCurlyQuotes text else text in
  let text := if negb (streq (NormalizationForm opts) [])
              then normalize text (NormalizationForm opts) else text in
  text.

Definition Fix (text : gostring) : gostring := FixWithOptions text DefaultOptions.

Definition IsValid (text : gostring) : bool := streq (Fix text) text.

(** [CountProblems]: the difference of the rune counts, never negative. *)
Definition CountProblems (text : gostring) : Z :=
  let fixed := Fix text in
  if streq text fixed then 0
  else
    let diff := utf8.RuneCountInString text - utf8.RuneCountInString fixed in
    if diff <? 0 then 0 else diff.

(** [FixLines] fixes each line of a multi-line string independently. *)
Definition FixLines (text : gostring) : gostring :=
  let lines := strings.Split text [0x0A] in
  let lines := rangeAssign Fix lines lines in
  strings.Join lines [0x0A].

(** [FixSlice] fixes every string in a slice. *)
Definition FixSlice (texts : list gostring) : list gostring :=
  rangeAssign Fix texts (repeat [] (length texts)).

(** [FixMap] fixes every value in a map.  The loop ranges over the map in an
    order Go does not specify; a call may return the result of any order. *)
Definition FixMapIn (order : gomap) : gomap :=
  fold_left (fun result kv => mapStore (fst kv) (Fix (snd kv)) result) order [].

Definition FixMap (m result : gomap) : Prop :=
  exists order, Permutation order m /\ result = FixMapIn order.

(** The closure [stage] of [Explain]: run [fn] on the text and record [name]
    when the text changed. *)
Definition stage (name : gostring) (fn : gostring -> gostring)
  (st : gostring * list gostring) : gostring * list gostring :=
  let (text, notes) := st in
  let newText := fn text in
  if negb (streq newText text) then (newText, notes ++ [name]) else (text, notes).

(** The replay of the default pipeline in [Explain]: the text and the notes
    after the last stage. *)
Definition replay (original : gostring) : gostring * list gostring :=
  let opts := DefaultOptions in
  let st := (original, []) in
  let st := if RemoveTerminalEscapes opts
            then stage (go "removed terminal escapes") removeTerminalEscapes st
            else st in
  let st := if FixSurrogates opts
            then stage (go "fixed surrogates") fixSurrogates st else st in
  let st := if FixEncoding opts
            then stage (go "fixed mojibake encoding") fixEncoding st else st in
  let st := if FixHTMLEntities opts
            then stage (go "decoded HTML entities") fixHTMLEntities st else st in
  let st := if FixLineBreaks opts
            then stage (go "normalized line breaks") fixLineBreaks st else st in
  let st := if FixControlChars opts
            then stage (go "removed control characters") fixControlChars st
            else st in
  let st := if FixCurlyQuotes opts
            then stage (go "straightened curly quotes") fixCurlyQuotes st
            else st in
  let st := if negb (streq (NormalizationForm opts) [])
            then stage (go "normalized unicode")
                       (fun s => normalize s (NormalizationForm opts)) st
            else st in
  st.

(** [Explain] returns a human-readable description of what fixes were
    applied. *)
Definition Explain (original fixed : gostring) : gostring :=
  if streq original fixed then go "No changes needed."
  else
    let (text, notes) := replay original in
    match notes with
    | [] => go "Fixes applied: (unable to infer stages)."
    | _ :: _ =>
      let msg := go "Fixes applied: " ++ strings.Join notes (go ", ") ++ go "." in
      if negb (streq text fixed)
      then msg ++ go " (inferred using default options; provided fixed output differs)"
      else msg
    end.
(* ================================================================== *)
(** * Properties *)

(** ** Byte strings *)

Lemma streq_refl (a : gostring) : streq a a = true.
Proof. induction a as [|x a IH]; simpl; [reflexivity|]. now rewrite Z.eqb_refl. Qed.

Lemma streq_eq (a b : gostring) : streq a b = true <-> a = b.
Proof.
  split; [|intros ->; apply streq_refl].
  revert b; induction a as [|x a IH]; intros [|y b]; simpl; try discriminate; auto.
  intros H. apply andb_true_iff in H as [Hx Hab].
  apply Z.eqb_eq in Hx. f_equal; auto.
Qed.

Lemma streq_neq (a b : gostring) : streq a b = false <-> a <> b.
Proof.
  split.
  - intros H E. apply streq_eq in E. congruence.
  - intros H. destruct (streq a b) eqn:E; [|reflexivity].
    apply streq_eq in E. contradiction.
Qed.

Lemma build_flat_map (f : Z -> gostring) (rs : list Z) : build f rs = flat_map f rs.
Proof.
  unfold build.
  assert (G : forall acc, fold_left (fun b r => b ++ f r) rs acc = acc ++ flat_map f rs).
  { induction rs as [|r rs IH]; intros acc; simpl.
    - now rewrite app_nil_r.
    - rewrite IH. now rewrite app_assoc. }
  apply (G []).
Qed.

(** ** UTF-8 *)



Lemma utf8_DecodeRune_width (s : gostring) :
  s <> [] -> (1 <= snd (utf8.DecodeRune s) <= length s)%nat.
Proof.
  destruct s as [|p0 t0]; [congruence|intros _].
  unfold utf8.DecodeRune.
  destruct ((0 <=? p0) && (p0 <? utf8.RuneSelf)); [simpl; lia|].
  destruct ((0xC2 <=? p0) && (p0 <=? 0xDF)).
  { destruct t0 as [|b1 t1]; [simpl; lia|].
    destruct (utf8.isCont b1); simpl; lia. }
  destruct ((0xE0 <=? p0) && (p0 <=? 0xEF)).
  { destruct t0 as [|b1 [|b2 t2]]; try (simpl; lia).
    destruct (utf8.accept p0 b1 && utf8.isCont b2); simpl; lia. }
  destruct ((0xF0 <=? p0) && (p0 <=? 0xF4)); [|simpl; lia].
  destruct t0 as [|b1 [|b2 [|b3 t3]]]; try (simpl; lia).
  destruct (utf8.accept p0 b1 && utf8.isCont b2 && utf8.isCont b3); simpl; lia.
Qed.

Lemma utf8_decodeLoop_fuel (f1 f2 : nat) (s : gostring) :
  (length s <= f1)%nat -> (length s <= f2)%nat ->
  utf8.decodeLoop f1 s = utf8.decodeLoop f2 s.
Proof.
  revert f2 s; induction f1 as [|f1 IH]; intros f2 s H1 H2.
  - destruct s; [|simpl in H1; lia]. destruct f2; reflexivity.
  - destruct f2 as [|f2]; [destruct s; [reflexivity|simpl in H2; lia]|].
    destruct s as [|c s]; [reflexivity|].
    cbn [utf8.decodeLoop]. f_equal.
    pose proof (utf8_DecodeRune_width (c :: s) ltac:(discriminate)) as W.
    assert (L : (length (skipn (snd (utf8.DecodeRune (c :: s))) (c :: s)) < length (c :: s))%nat).
    { rewrite length_skipn. lia. }
    apply IH; cbn [length] in *; lia.
Qed.

(** One iteration of the range loop. *)
Lemma utf8_decodeAll_step (s : gostring) :
  s <> [] ->
  utf8.decodeAll s
  = utf8.DecodeRune s :: utf8.decodeAll (skipn (snd (utf8.DecodeRune s)) s).
Proof.
  intros Hs. destruct s as [|c s]; [congruence|].
  unfold utf8.decodeAll. cbn [length utf8.decodeLoop]. f_equal.
  pose proof (utf8_DecodeRune_width (c :: s) Hs) as W.
  apply utf8_decodeLoop_fuel; rewrite ?length_skipn; cbn [length] in *; lia.
Qed.

Lemma utf8_decodeAll_nil : utf8.decodeAll [] = [].
Proof. reflexivity. Qed.

(** Induction along the range loop. *)
Lemma utf8_range_ind (P : gostring -> Prop) :
  P [] ->
  (forall s, s <> [] -> P (skipn (snd (utf8.DecodeRune s)) s) -> P s) ->
  forall s, P s.
Proof.
  intros H0 Hstep s.
  remember (length s) as n eqn:Hn.
  revert s Hn. induction n as [n IH] using lt_wf_ind. intros s Hn.
  destruct s as [|c s]; [exact H0|].
  apply Hstep; [discriminate|].
  pose proof (utf8_DecodeRune_width (c :: s) ltac:(discriminate)) as W.
  eapply IH; [|reflexivity]. rewrite length_skipn. subst n. lia.
Qed.

Lemma utf8_EncodeRune_nonempty (r : Z) : utf8.EncodeRune r <> [].
Proof.
  unfold utf8.EncodeRune, utf8.enc3, utf8.enc4.
  repeat match goal with |- context [if ?b then _ else _] => destruct b end; discriminate.
Qed.

(** The digits of a rune in base 64, as the encoder takes them. *)
Lemma digits2 (r : Z) : 0x80 <= r <= 0x7FF ->
  exists a b, r / 64 = a /\ r mod 64 = b /\ r = a * 64 + b /\ 2 <= a <= 31 /\ 0 <= b < 64.
Proof. intros H. exists (r / 64), (r mod 64). repeat split; divmod. Qed.

Lemma digits3 (r : Z) : 0x800 <= r <= 0xFFFF ->
  exists a b c, r / 4096 = a /\ (r / 64) mod 64 = b /\ r mod 64 = c
                /\ r = a * 4096 + b * 64 + c
                /\ 0 <= a <= 15 /\ 0 <= b < 64 /\ 0 <= c < 64.
Proof. intros H. exists (r / 4096), ((r / 64) mod 64), (r mod 64). repeat split; divmod. Qed.

Lemma digits4 (r : Z) : 0x10000 <= r <= 0x10FFFF ->
  exists a b c d, r / 262144 = a /\ (r / 4096) mod 64 = b /\ (r / 64) mod 64 = c
                  /\ r mod 64 = d
                  /\ r = a * 262144 + b * 4096 + c * 64 + d
                  /\ 0 <= a <= 4 /\ 0 <= b < 64 /\ 0 <= c < 64 /\ 0 <= d < 64.
Proof.
  intros H. exists (r / 262144), ((r / 4096) mod 64), ((r / 64) mod 64), (r mod 64).
  repeat split; divmod.
Qed.

Lemma utf8_ValidRune_spec (r : Z) :
  utf8.ValidRune r = true <-> (0 <= r < 0xD800 \/ 0xDFFF < r <= 0x10FFFF).
Proof.
  unfold utf8.ValidRune, utf8.MaxRune.
  rewrite orb_true_iff, !andb_true_iff, !Z.leb_le, !Z.ltb_lt. lia.
Qed.

(** Decoding what [EncodeRune] wrote gives the rune back. *)
Lemma utf8_DecodeRune_EncodeRune (r : Z) (rest : gostring) :
  utf8.ValidRune r = true ->
  utf8.DecodeRune (utf8.EncodeRune r ++ rest) = (r, length (utf8.EncodeRune r)).
Proof.
  intros V. apply utf8_ValidRune_spec in V as R.
  assert (R0 : 0 <= r <= 0x10FFFF) by lia.
  unfold utf8.EncodeRune, utf8.enc3, utf8.enc4.
  destruct (Z.leb_spec r 0x7F).
  { unfold_utf8. cmp_lia. cbn [app utf8.DecodeRune length]. unfold_utf8. cmp_lia. reflexivity. }
  destruct (Z.leb_spec r 0x7FF).
  { destruct (digits2 r) as (a & b & -> & -> & E & Ha & Hb); [lia|].
    unfold_utf8. cmp_lia. cbn [app utf8.DecodeRune length]. unfold_utf8. cmp_lia.
    f_equal. lia. }
  destruct (Z.leb_spec r 0xFFFF).
  { destruct (digits3 r) as (a & b & c & -> & -> & -> & E & Ha & Hb & Hc); [lia|].
    destruct (Z.eq_dec a 0); destruct (Z.eq_dec a 13); try lia.
    all: destruct R as [R|R]; try lia.
    all: unfold_utf8; cmp_lia; cbn [app utf8.DecodeRune length]; unfold_utf8; cmp_lia.
    all: f_equal; lia. }
  destruct (digits4 r) as (a & b & c & d & -> & -> & -> & -> & E & Ha & Hb & Hc & Hd); [lia|].
  destruct (Z.eq_dec a 0); destruct (Z.eq_dec a 4); try lia.
  all: unfold_utf8; cmp_lia; cbn [app utf8.DecodeRune length]; unfold_utf8; cmp_lia.
  all: f_equal; lia.
Qed.


Lemma utf8_accept_spec (p0 b1 : Z) :
  utf8.accept p0 b1 = true <->
  (0x80 <= b1 <= 0xBF /\ (p0 = 0xE0 -> 0xA0 <= b1) /\ (p0 = 0xF0 -> 0x90 <= b1)
   /\ (p0 = 0xED -> b1 <= 0x9F) /\ (p0 = 0xF4 -> b1 <= 0x8F)).
Proof.
  unfold utf8.accept, utf8.acceptLo, utf8.acceptHi.
  rewrite andb_true_iff, Z.leb_le, Z.leb_le.
  destruct (Z.eqb_spec p0 0xE0); destruct (Z.eqb_spec p0 0xF0);
    destruct (Z.eqb_spec p0 0xED); destruct (Z.eqb_spec p0 0xF4); lia.
Qed.

Lemma utf8_isCont_spec (b : Z) : utf8.isCont b = true <-> 0x80 <= b <= 0xBF.
Proof. unfold utf8.isCont. rewrite andb_true_iff, Z.leb_le, Z.leb_le. lia. Qed.


(** Turn the boolean tests in hypothesis [H] into arithmetic facts. *)
Ltac b2p H :=
  repeat match type of H with
         | _ && _ = true => let H' := fresh H in apply andb_true_iff in H as [H H']; b2p H'
         end;
  try (apply utf8_accept_spec in H);
  try (apply utf8_isCont_spec in H);
  try (apply Z.leb_le in H);
  try (apply Z.ltb_lt in H).

Lemma utf8_DecodeRune_spec (s : gostring) :
  utf8.DecodeSpec s (fst (utf8.DecodeRune s)) (snd (utf8.DecodeRune s)).
Proof.
  destruct s as [|p0 t0]; [constructor|].
  unfold utf8.DecodeRune, utf8.RuneSelf.
  destruct ((0 <=? p0) && (p0 <? 0x80)) eqn:E1.
  { b2p E1. cbn [fst snd]. constructor. lia. }
  destruct ((0xC2 <=? p0) && (p0 <=? 0xDF)) eqn:E2.
  { b2p E2. destruct t0 as [|b1 t1]; [constructor|].
    destruct (utf8.isCont b1) eqn:C1; [|constructor].
    b2p C1. cbn [fst snd]. constructor; lia. }
  destruct ((0xE0 <=? p0) && (p0 <=? 0xEF)) eqn:E3.
  { b2p E3. destruct t0 as [|b1 [|b2 t2]]; try constructor.
    destruct (utf8.accept p0 b1 && utf8.isCont b2) eqn:C; [|constructor].
    b2p C. cbn [fst snd]. constructor; lia. }
  destruct ((0xF0 <=? p0) && (p0 <=? 0xF4)) eqn:E4; [|constructor].
  b2p E4. destruct t0 as [|b1 [|b2 [|b3 t3]]]; try constructor.
  destruct (utf8.accept p0 b1 && utf8.isCont b2 && utf8.isCont b3) eqn:C; [|constructor].
  b2p C. cbn [fst snd]. constructor; lia.
Qed.

(** The range loop only yields Unicode scalar values. *)
Lemma utf8_DecodeRune_ValidRune (s : gostring) :
  utf8.ValidRune (fst (utf8.DecodeRune s)) = true.
Proof.
  pose proof (utf8_DecodeRune_spec s) as D.
  remember (fst (utf8.DecodeRune s)) as r. remember (snd (utf8.DecodeRune s)) as w.
  clear Heqr Heqw.
  apply utf8_ValidRune_spec.
  destruct D; unfold utf8.RuneError; lia.
Qed.

(** A step that is not an encoding error consumed exactly the encoding of
    its rune. *)
Lemma utf8_EncodeRune_DecodeRune (s : gostring) :
  s <> [] -> utf8.isError (utf8.DecodeRune s) = false ->
  firstn (snd (utf8.DecodeRune s)) s = utf8.EncodeRune (fst (utf8.DecodeRune s)).
Proof. clear looksLikeMojibake UnescapeString normString.
  intros Hs. unfold utf8.isError.
  pose proof (utf8_DecodeRune_spec s) as D.
  remember (fst (utf8.DecodeRune s)) as r. remember (snd (utf8.DecodeRune s)) as w.
  clear Heqr Heqw.
  destruct D; try congruence.
  - rewrite Z.eqb_refl. discriminate.
  - intros _. unfold utf8.EncodeRune. cmp_lia. reflexivity.
  - intros _. unfold utf8.EncodeRune. cmp_lia. cbn [firstn]. repeat f_equal; divmod.
  - intros _. unfold utf8.EncodeRune, utf8.enc3. unfold_utf8.
    destruct (Z.eq_dec p0 0xE0); destruct (Z.lt_trichotomy p0 0xED) as [|[|]];
      cmp_lia; try lia.
    all: cbn [firstn]; repeat f_equal; divmod.
  - intros _. unfold utf8.EncodeRune, utf8.enc4. unfold_utf8.
    destruct (Z.eq_dec p0 0xF0); destruct (Z.eq_dec p0 0xF4); cmp_lia; try lia.
    all: cbn [firstn]; repeat f_equal; divmod.
Qed.
Lemma utf8_runes_nil : utf8.runes [] = [].
Proof. reflexivity. Qed.

Lemma utf8_runes_step (s : gostring) :
  s <> [] ->
  utf8.runes s
  = fst (utf8.DecodeRune s) :: utf8.runes (skipn (snd (utf8.DecodeRune s)) s).
Proof. intros Hs. unfold utf8.runes. now rewrite utf8_decodeAll_step. Qed.

Lemma utf8_Valid_step (s : gostring) :
  s <> [] ->
  utf8.Valid s
  = negb (utf8.isError (utf8.DecodeRune s))
    && utf8.Valid (skipn (snd (utf8.DecodeRune s)) s).
Proof. intros Hs. unfold utf8.Valid. now rewrite utf8_decodeAll_step. Qed.

Lemma utf8_EncodeRune_not_error (r : Z) :
  utf8.isError (r, length (utf8.EncodeRune r)) = false.
Proof.
  unfold utf8.isError. cbn [fst snd].
  destruct (Z.eqb_spec r utf8.RuneError) as [->|]; [|reflexivity].
  reflexivity.
Qed.

Lemma utf8_decodeAll_encodeAll (rs : list Z) :
  (forall r, In r rs -> utf8.ValidRune r = true) ->
  utf8.decodeAll (utf8.encodeAll rs)
  = map (fun r => (r, length (utf8.EncodeRune r))) rs.
Proof.
  induction rs as [|r rs IH]; intros V; [reflexivity|].
  unfold utf8.encodeAll in *. cbn [flat_map map].
  rewrite utf8_decodeAll_step.
  2:{ intros E. apply app_eq_nil in E as [E _]. now apply utf8_EncodeRune_nonempty in E. }
  rewrite utf8_DecodeRune_EncodeRune by (apply V; now left).
  cbn [snd]. rewrite skipn_app, skipn_all, Nat.sub_diag. cbn [skipn app].
  rewrite IH; [reflexivity|]. intros r' Hr'. apply V. now right.
Qed.

(** Writing runes and ranging over the result gives the runes back. *)
Lemma utf8_runes_encodeAll (rs : list Z) :
  (forall r, In r rs -> utf8.ValidRune r = true) ->
  utf8.runes (utf8.encodeAll rs) = rs.
Proof.
  intros V. unfold utf8.runes. rewrite utf8_decodeAll_encodeAll by exact V.
  rewrite map_map. cbn [fst]. apply map_id.
Qed.

(** What [WriteRune] wrote is valid UTF-8. *)
Lemma utf8_Valid_encodeAll (rs : list Z) :
  (forall r, In r rs -> utf8.ValidRune r = true) ->
  utf8.Valid (utf8.encodeAll rs) = true.
Proof.
  intros V. unfold utf8.Valid. rewrite utf8_decodeAll_encodeAll by exact V.
  apply forallb_forall. intros rw H. apply in_map_iff in H as (r & <- & _).
  now rewrite utf8_EncodeRune_not_error.
Qed.

Lemma utf8_runes_ValidRune (s : gostring) (r : Z) :
  In r (utf8.runes s) -> utf8.ValidRune r = true.
Proof.
  revert r. induction s as [|s Hs IH] using utf8_range_ind; intros r.
  - intros [].
  - rewrite utf8_runes_step by exact Hs. intros [<-|H].
    + apply utf8_DecodeRune_ValidRune.
    + now apply IH.
Qed.

(** Ranging over valid UTF-8 and writing the runes gives the bytes back. *)
Lemma utf8_encodeAll_runes (s : gostring) :
  utf8.Valid s = true -> utf8.encodeAll (utf8.runes s) = s.
Proof. clear looksLikeMojibake UnescapeString normString.
  induction s as [|s Hs IH] using utf8_range_ind; [reflexivity|].
  rewrite utf8_Valid_step, utf8_runes_step by exact Hs.
  intros V. apply andb_true_iff in V as [E V]. apply negb_true_iff in E.
  unfold utf8.encodeAll in *. cbn [flat_map]. rewrite IH by exact V.
  rewrite <- utf8_EncodeRune_DecodeRune by assumption.
  apply firstn_skipn.
Qed.

Lemma utf8_Valid_nil : utf8.Valid [] = true.
Proof. reflexivity. Qed.

(** ** The stages that rewrite rune by rune *)

Lemma flat_map_ext_in {A B : Type} (f g : A -> list B) (l : list A) :
  (forall a, In a l -> f a = g a) -> flat_map f l = flat_map g l.
Proof.
  induction l as [|a l IH]; intros H; [reflexivity|].
  cbn [flat_map]. rewrite (H a) by now left. f_equal. apply IH.
  intros b Hb. apply H. now right.
Qed.

Lemma utf8_runes_bounds (s : gostring) (r : Z) :
  In r (utf8.runes s) -> 0 <= r < 0xD800 \/ 0xDFFF < r <= 0x10FFFF.
Proof. intros H. now apply utf8_ValidRune_spec, (utf8_runes_ValidRune s). Qed.

(** A range loop never sees a surrogate, so the loop of [fixSurrogates]
    writes every rune back as it is. *)
Lemma fixSurrogates_encodeAll (text : gostring) :
  fixSurrogates text = utf8.encodeAll (utf8.runes text).
Proof.
  unfold fixSurrogates. rewrite build_flat_map. unfold utf8.encodeAll.
  apply flat_map_ext_in. intros r Hr.
  apply utf8_runes_bounds in Hr. destruct Hr; cmp_lia; reflexivity.
Qed.

Lemma fixSurrogates_Valid (text : gostring) : utf8.Valid (fixSurrogates text) = true.
Proof.
  rewrite fixSurrogates_encodeAll. apply utf8_Valid_encodeAll.
  apply utf8_runes_ValidRune.
Qed.

Lemma fixSurrogates_fixed (text : gostring) :
  utf8.Valid text = true -> fixSurrogates text = text.
Proof. clear looksLikeMojibake UnescapeString normString. intros V. rewrite fixSurrogates_encodeAll. now apply utf8_encodeAll_runes. Qed.

Lemma fixControlChars_encodeAll (text : gostring) :
  fixControlChars text
  = utf8.encodeAll (filter (fun r => negb (stripped r)) (utf8.runes text)).
Proof.
  unfold fixControlChars. rewrite build_flat_map. unfold utf8.encodeAll.
  induction (utf8.runes text) as [|r rs IH]; [reflexivity|].
  cbn [flat_map filter]. rewrite IH. unfold stripped.
  destruct ((r =? 9) || (r =? 10) || (r =? 13)); cbn [negb andb app]; [reflexivity|].
  destruct ((r <? 32) || (127 <=? r) && (r <=? 159)); reflexivity.
Qed.

Lemma fixControlChars_runes (text : gostring) :
  utf8.runes (fixControlChars text)
  = filter (fun r => negb (stripped r)) (utf8.runes text).
Proof.
  rewrite fixControlChars_encodeAll. apply utf8_runes_encodeAll.
  intros r Hr. apply filter_In in Hr as [Hr _]. now apply (utf8_runes_ValidRune text).
Qed.

Lemma fixControlChars_Valid (text : gostring) :
  utf8.Valid (fixControlChars text) = true.
Proof.
  rewrite fixControlChars_encodeAll. apply utf8_Valid_encodeAll.
  intros r Hr. apply filter_In in Hr as [Hr _]. now apply (utf8_runes_ValidRune text).
Qed.

Lemma fixControlChars_fixed (text : gostring) :
  utf8.Valid text = true ->
  (forall r, In r (utf8.runes text) -> stripped r = false) ->
  fixControlChars text = text.
Proof. clear looksLikeMojibake UnescapeString normString.
  intros V H. rewrite fixControlChars_encodeAll.
  rewrite forallb_filter_id.
  - now apply utf8_encodeAll_runes.
  - apply forallb_forall. intros r Hr. now rewrite H.
Qed.

(** ** The reverser *)

Lemma rawBytes_reconstruction (text : gostring) : rawBytes text = reconstruction text.
Proof.
  unfold rawBytes, reconstruction. rewrite build_flat_map.
  apply flat_map_ext_in. intros r Hr. apply utf8_runes_bounds in Hr.
  destruct (Z.ltb_spec r 256); [|reflexivity].
  now rewrite Z.mod_small by lia.
Qed.

Lemma countNonASCII_filter (s : gostring) :
  countNonASCII s = Z.of_nat (length (filter (fun r => 127 <? r) (utf8.runes s))).
Proof.
  unfold countNonASCII.
  assert (G : forall rs n,
             fold_left (fun count r => if 127 <? r then count + 1 else count) rs n
             = n + Z.of_nat (length (filter (fun r => 127 <? r) rs))).
  { induction rs as [|r rs IH]; intros n; cbn [fold_left filter].
    - cbn. lia.
    - rewrite IH. destruct (127 <? r); cbn [length]; lia. }
  rewrite G. lia.
Qed.

Lemma decodeMojibake_eq (text : gostring) :
  decodeMojibake text
  = if utf8.Valid (reconstruction text)
       && (countNonASCII (reconstruction text) <? countNonASCII text)
    then reconstruction text else text.
Proof.
  unfold decodeMojibake. rewrite rawBytes_reconstruction.
  destruct (utf8.Valid (reconstruction text)); [|reflexivity].
  destruct (countNonASCII (reconstruction text) <? countNonASCII text); reflexivity.
Qed.

(** What [decodeMojibake] returns is its argument or a valid string. *)
Lemma decodeMojibake_Valid (text : gostring) :
  decodeMojibake text <> text -> utf8.Valid (decodeMojibake text) = true.
Proof.
  rewrite decodeMojibake_eq.
  destruct (utf8.Valid (reconstruction text)) eqn:V; cbn [andb]; [|congruence].
  destruct (countNonASCII (reconstruction text) <? countNonASCII text); congruence.
Qed.

(** C4.  The reverser returns the byte reconstruction of its argument when
    the reconstruction is valid UTF-8 and has strictly fewer code points
    above 127 than the argument, and the argument itself in every other
    case; so a result that differs from the argument is the reconstruction
    and both conditions hold, and the result is the reconstruction exactly
    when both conditions hold or the reconstruction is the argument itself.
    The raw bytes the code collects are the reconstruction as the
    specification words it. *)
Theorem decodeMojibake_acceptance (text : gostring) :
  rawBytes text = reconstruction text
  /\ (utf8.Valid (reconstruction text) = true
      /\ countNonASCII (reconstruction text) < countNonASCII text ->
      decodeMojibake text = reconstruction text)
  /\ (~ (utf8.Valid (reconstruction text) = true
         /\ countNonASCII (reconstruction text) < countNonASCII text) ->
      decodeMojibake text = text)
  /\ (decodeMojibake text <> text ->
      decodeMojibake text = reconstruction text
      /\ utf8.Valid (reconstruction text) = true
      /\ countNonASCII (reconstruction text) < countNonASCII text)
  /\ (decodeMojibake text = reconstruction text <->
      (utf8.Valid (reconstruction text) = true
       /\ countNonASCII (reconstruction text) < countNonASCII text)
      \/ reconstruction text = text).
Proof.
  split; [apply rawBytes_reconstruction|].
  cut ((utf8.Valid (reconstruction text) = true
        /\ countNonASCII (reconstruction text) < countNonASCII text ->
        decodeMojibake text = reconstruction text)
       /\ (~ (utf8.Valid (reconstruction text) = true
              /\ countNonASCII (reconstruction text) < countNonASCII text) ->
           decodeMojibake text = text)
       /\ (decodeMojibake text <> text ->
           decodeMojibake text = reconstruction text
           /\ utf8.Valid (reconstruction text) = true
           /\ countNonASCII (reconstruction text) < countNonASCII text)).
  { intros (A & B & C). repeat (split; [assumption|]). split.
    - intros E. destruct (streq (reconstruction text) text) eqn:S.
      + right. now apply streq_eq.
      + left. apply streq_neq in S. apply C. congruence.
    - intros [H| H]; [now apply A|].
      destruct (streq (decodeMojibake text) text) eqn:S.
      + apply streq_eq in S. congruence.
      + apply streq_neq in S. now apply C. }
  rewrite decodeMojibake_eq.
  destruct (utf8.Valid (reconstruction text)) eqn:V; cbn [andb].
  - destruct (Z.ltb_spec (countNonASCII (reconstruction text)) (countNonASCII text)).
    + split; [reflexivity|]. split.
      * intros N. exfalso. apply N. now split.
      * intros _. now repeat split.
    + split; [intros [_ L]; lia|]. split; [reflexivity|congruence].
  - split; [intros [E _]; discriminate|]. split; [reflexivity|congruence].
Qed.

(** The two tests of [fixEncoding] on the result of the reverser always
    accept it: the result is the text or a valid string. *)
Lemma fixEncoding_eq (text : gostring) :
  fixEncoding text
  = if utf8.Valid text && negb (looksLikeMojibake text) then text
    else decodeMojibake text.
Proof.
  unfold fixEncoding.
  destruct (utf8.Valid text && negb (looksLikeMojibake text)); [reflexivity|].
  destruct (streq (decodeMojibake text) text) eqn:E; cbn [negb andb].
  - apply streq_eq in E. congruence.
  - apply streq_neq in E. now rewrite decodeMojibake_Valid.
Qed.

(** C3, as amended.  The detector gates the reverser: valid text that the
    detector does not flag is returned as it is, without trying the
    reverser; any other text gets the result of the reverser. *)
Theorem fixEncoding_gate (text : gostring) :
  (utf8.Valid text = true -> looksLikeMojibake text = false ->
   fixEncoding text = text)
  /\ (utf8.Valid text = false \/ looksLikeMojibake text = true ->
      fixEncoding text = decodeMojibake text).
Proof.
  rewrite fixEncoding_eq. split.
  - intros -> ->. reflexivity.
  - intros [-> | ->]; [reflexivity|]. now rewrite andb_false_r.
Qed.

(** The encoding stage keeps valid text valid, and a result that differs
    from the input is valid whatever the input was. *)
Lemma fixEncoding_changed_Valid (text : gostring) :
  fixEncoding text <> text -> utf8.Valid (fixEncoding text) = true.
Proof.
  rewrite fixEncoding_eq.
  destruct (utf8.Valid text && negb (looksLikeMojibake text)); [congruence|].
  apply decodeMojibake_Valid.
Qed.

Lemma fixEncoding_Valid (text : gostring) :
  utf8.Valid text = true -> utf8.Valid (fixEncoding text) = true.
Proof.
  intros V. destruct (streq (fixEncoding text) text) eqn:E.
  - apply streq_eq in E. congruence.
  - apply streq_neq in E. now apply fixEncoding_changed_Valid.
Qed.

Lemma fixEncoding_of_decodeMojibake_fixed (text : gostring) :
  decodeMojibake text = text -> fixEncoding text = text.
Proof.
  intros E. rewrite fixEncoding_eq, E.
  now destruct (utf8.Valid text && negb (looksLikeMojibake text)).
Qed.

(** *** Re-running the reverser *)

(** A byte of 0x80 and above that is not followed by a continuation byte is
    an encoding error. *)
Lemma utf8_DecodeRune_lonely (p0 : Z) (t : gostring) :
  0x80 <= p0 ->
  match t with [] => True | b :: _ => utf8.isCont b = false end ->
  utf8.DecodeRune (p0 :: t) = (utf8.RuneError, 1%nat).
Proof.
  intros Hp Ht. unfold utf8.DecodeRune, utf8.RuneSelf.
  replace (p0 <? 128) with false by (symmetry; apply Z.ltb_ge; lia).
  rewrite andb_false_r.
  assert (A : forall b, utf8.isCont b = false -> utf8.accept p0 b = false).
  { intros b Hb. destruct (utf8.accept p0 b) eqn:E; [|reflexivity].
    apply utf8_accept_spec in E. rewrite (proj2 (utf8_isCont_spec b)) in Hb; [discriminate|lia]. }
  destruct t as [|b1 t1].
  - repeat match goal with |- context [if ?c then _ else _] => destruct c end; reflexivity.
  - rewrite Ht, (A _ Ht). cbn [andb].
    destruct t1 as [|b2 [|b3 t3]];
      repeat match goal with |- context [if ?c then _ else _] => destruct c end; reflexivity.
Qed.

(** The encoding of a rune of 0x80 and above starts with a lead byte. *)
Lemma utf8_EncodeRune_head (r : Z) :
  utf8.ValidRune r = true -> 0x80 <= r ->
  exists b t, utf8.EncodeRune r = b :: t /\ 0xC0 <= b.
Proof.
  intros V H. apply utf8_ValidRune_spec in V.
  unfold utf8.EncodeRune, utf8.enc3, utf8.enc4. unfold_utf8.
  destruct (Z.leb_spec r 0x7FF).
  { destruct (digits2 r) as (a & b & -> & -> & E & Ha & Hb); [lia|].
    cmp_lia. eexists _, _. split; [reflexivity|lia]. }
  destruct (Z.leb_spec r 0xFFFF).
  { destruct (digits3 r) as (a & b & c & -> & -> & -> & E & Ha & Hb & Hc); [lia|].
    destruct V; cmp_lia; try lia; (eexists _, _; split; [reflexivity|lia]). }
  destruct (digits4 r) as (a & b & c & d & -> & -> & -> & -> & E & Ha & Hb & Hc & Hd); [lia|].
  destruct V; cmp_lia; try lia; (eexists _, _; split; [reflexivity|lia]).
Qed.

(** The reconstruction never starts with a continuation byte when the text
    has no rune in U+0080..U+00BF. *)
Lemma reconstruction_head (rs : list Z) :
  (forall r, In r rs -> utf8.ValidRune r = true) ->
  (forall r, In r rs -> ~ 0x80 <= r <= 0xBF) ->
  match flat_map (fun r => if r <? 256 then [r] else utf8.EncodeRune r) rs with
  | [] => True
  | b :: _ => utf8.isCont b = false
  end.
Proof.
  destruct rs as [|r rs]; [exact (fun _ _ => I)|]. intros V N.
  specialize (V r (or_introl eq_refl)). specialize (N r (or_introl eq_refl)).
  cbn [flat_map]. destruct (Z.ltb_spec r 256); cbn [app].
  - unfold utf8.isCont. destruct (Z.leb_spec 128 r); destruct (Z.leb_spec r 191); try reflexivity. lia.
  - destruct (utf8_EncodeRune_head r V) as (b & t & -> & Hb); [lia|].
    cbn [app]. unfold utf8.isCont. cmp_lia. reflexivity.
Qed.

(** With a rune in U+00C0..U+00FF and none in U+0080..U+00BF the
    reconstruction is not valid UTF-8. *)
Lemma reconstruction_invalid (rs : list Z) :
  (forall r, In r rs -> utf8.ValidRune r = true) ->
  (forall r, In r rs -> ~ 0x80 <= r <= 0xBF) ->
  (exists r, In r rs /\ 0xC0 <= r <= 0xFF) ->
  utf8.Valid (flat_map (fun r => if r <? 256 then [r] else utf8.EncodeRune r) rs) = false.
Proof.
  induction rs as [|r rs IH]; intros V N (r0 & Hin & Hr0); [destruct Hin|].
  assert (V' : forall r, In r rs -> utf8.ValidRune r = true) by (intros; apply V; now right).
  assert (N' : forall r, In r rs -> ~ 0x80 <= r <= 0xBF) by (intros; apply N; now right).
  pose proof (V r (or_introl eq_refl)) as Vr. pose proof (N r (or_introl eq_refl)) as Nr.
  apply utf8_ValidRune_spec in Vr as Br.
  cbn [flat_map].
  destruct (Z.ltb_spec r 256) as [L|L].
  - cbn [app]. rewrite utf8_Valid_step by discriminate.
    destruct (Z_lt_dec r 0x80) as [A|A].
    + (* an ASCII byte *)
      replace (utf8.DecodeRune (r :: _)) with (r, 1%nat).
      2:{ unfold utf8.DecodeRune, utf8.RuneSelf. cmp_lia. reflexivity. }
      cbn [snd skipn]. rewrite IH; [apply andb_false_r|assumption|assumption|].
      destruct Hin as [<-|Hin]; [lia|]. now exists r0.
    + (* a lead byte on its own *)
      rewrite utf8_DecodeRune_lonely; [reflexivity|lia|].
      now apply reconstruction_head.
  - rewrite utf8_Valid_step.
    2:{ intros E. apply app_eq_nil in E as [E _]. now apply utf8_EncodeRune_nonempty in E. }
    rewrite utf8_DecodeRune_EncodeRune by assumption. cbn [snd].
    rewrite skipn_app, skipn_all, Nat.sub_diag. cbn [skipn app].
    rewrite IH; [apply andb_false_r|assumption|assumption|].
    destruct Hin as [<-|Hin]; [lia|]. now exists r0.
Qed.

(** Without a rune in U+0080..U+00FF the reconstruction has the same runes
    as the text. *)
Lemma reconstruction_runes (text : gostring) :
  (forall r, In r (utf8.runes text) -> ~ 0x80 <= r <= 0xFF) ->
  utf8.runes (reconstruction text) = utf8.runes text.
Proof.
  intros N. unfold reconstruction.
  rewrite (flat_map_ext_in _ utf8.EncodeRune).
  - apply utf8_runes_encodeAll, utf8_runes_ValidRune.
  - intros r Hr. specialize (N r Hr). apply utf8_runes_bounds in Hr.
    destruct (Z.ltb_spec r 256); [|reflexivity].
    unfold utf8.EncodeRune. cmp_lia. reflexivity.
Qed.

(** Text without a rune in U+0080..U+00BF is a fixed point of the
    reverser. *)
Lemma decodeMojibake_fixed (text : gostring) :
  (forall r, In r (utf8.runes text) -> ~ 0x80 <= r <= 0xBF) ->
  decodeMojibake text = text.
Proof.
  intros N. rewrite decodeMojibake_eq.
  destruct (existsb (fun r => (0xC0 <=? r) && (r <=? 0xFF)) (utf8.runes text)) eqn:E.
  - apply existsb_exists in E as (r0 & Hin & Hr0).
    apply andb_true_iff in Hr0 as [H1 H2]. apply Z.leb_le in H1, H2.
    unfold reconstruction at 1.
    rewrite reconstruction_invalid; [reflexivity| |exact N|now exists r0].
    apply utf8_runes_ValidRune.
  - assert (N2 : forall r, In r (utf8.runes text) -> ~ 0x80 <= r <= 0xFF).
    { intros r Hr B. pose proof (N r Hr).
      assert (F : (0xC0 <=? r) && (r <=? 0xFF) = false).
      { destruct ((0xC0 <=? r) && (r <=? 0xFF)) eqn:F; [|reflexivity].
        rewrite <- E. symmetry. apply existsb_exists. now exists r. }
      apply andb_false_iff in F as [F|F]; [apply Z.leb_gt in F|apply Z.leb_gt in F]; lia. }
    unfold countNonASCII at 1. rewrite reconstruction_runes by exact N2.
    fold (countNonASCII text). rewrite Z.ltb_irrefl, andb_false_r. reflexivity.
Qed.

(** C7, as amended.  The output of the encoding stage is a fixed point of
    the stage whenever it has no code point in U+0080..U+00BF: running the
    reverser again then fails the validity check or the strict reduction of
    code points above 127. *)
Theorem fixEncoding_fixed_point (text : gostring) :
  (forall r, In r (utf8.runes (fixEncoding text)) -> ~ 0x80 <= r <= 0xBF) ->
  fixEncoding (fixEncoding text) = fixEncoding text.
Proof.
  intros N. now apply fixEncoding_of_decodeMojibake_fixed, decodeMojibake_fixed.
Qed.

(** ** [strings.Index] and [strings.ReplaceAll] *)

Lemma strings_HasPrefix_app (s p : gostring) :
  strings.HasPrefix s p = true <-> exists x, s = p ++ x.
Proof.
  revert s. induction p as [|c p IH]; intros s; cbn [strings.HasPrefix].
  - split; [exists s; reflexivity|destruct s; reflexivity].
  - destruct s as [|d s].
    + split; [discriminate|]. intros (x & E). discriminate.
    + cbn [strings.HasPrefix]. rewrite andb_true_iff, Z.eqb_eq, IH. split.
      * intros (-> & x & ->). now exists x.
      * intros (x & E). injection E as -> ->. split; [reflexivity|now exists x].
Qed.

Lemma strings_HasPrefix_skipn (s p : gostring) :
  strings.HasPrefix s p = true -> s = p ++ skipn (length p) s.
Proof.
  intros H. apply strings_HasPrefix_app in H as (x & ->).
  now rewrite skipn_app, skipn_all, Nat.sub_diag.
Qed.

Lemma strings_Index_cons (c : Z) (s p : gostring) :
  strings.Index (c :: s) p
  = if strings.HasPrefix (c :: s) p then Some 0%nat
    else option_map S (strings.Index s p).
Proof. reflexivity. Qed.

Lemma strings_Index_None_cons (c : Z) (s p : gostring) :
  strings.Index (c :: s) p = None
  <-> strings.HasPrefix (c :: s) p = false /\ strings.Index s p = None.
Proof.
  rewrite strings_Index_cons.
  destruct (strings.HasPrefix (c :: s) p).
  - split; [discriminate|intros [? _]; discriminate].
  - destruct (strings.Index s p); cbn [option_map]; split; try discriminate; auto.
    intros [_ ?]; discriminate.
Qed.

Lemma strings_Index_None_nonempty (s p : gostring) :
  strings.Index s p = None -> p <> [].
Proof. intros H ->. destruct s; discriminate. Qed.

Lemma strings_Index_Some (s p : gostring) (j : nat) :
  strings.Index s p = Some j ->
  (j + length p <= length s)%nat /\ strings.HasPrefix (skipn j s) p = true.
Proof.
  revert j. induction s as [|c s IH]; intros j.
  - cbn [strings.Index]. destruct (strings.HasPrefix [] p) eqn:E; [|discriminate].
    intros [= <-]. split; [|exact E].
    apply strings_HasPrefix_app in E as (x & E). symmetry in E.
    apply app_eq_nil in E as [-> _]. cbn. lia.
  - rewrite strings_Index_cons. destruct (strings.HasPrefix (c :: s) p) eqn:E.
    + intros [= <-]. split; [|exact E].
      apply strings_HasPrefix_app in E as (x & E). rewrite E, length_app. lia.
    + destruct (strings.Index s p) as [k|]; [|discriminate].
      cbn [option_map]. intros [= <-]. destruct (IH k eq_refl) as [L H].
      split; [cbn [length]; lia|exact H].
Qed.

(** An instance in a suffix is an instance in the string. *)
Lemma strings_Index_None_skipn (s p : gostring) (n : nat) :
  strings.Index s p = None -> strings.Index (skipn n s) p = None.
Proof.
  revert s. induction n as [|n IH]; intros s H; [exact H|].
  destruct s as [|c s]; [exact H|].
  cbn [skipn]. apply IH. now apply strings_Index_None_cons in H.
Qed.

Lemma strings_Index_None_app (s p q : gostring) :
  strings.Index s p = None -> strings.Index s (p ++ q) = None.
Proof.
  assert (P : forall s, strings.HasPrefix s p = false -> strings.HasPrefix s (p ++ q) = false).
  { intros s0 H. destruct (strings.HasPrefix s0 (p ++ q)) eqn:E; [|reflexivity].
    apply strings_HasPrefix_app in E as (x & ->). rewrite <- H. symmetry.
    apply strings_HasPrefix_app. exists (q ++ x). now rewrite app_assoc. }
  induction s as [|c s IH].
  - cbn [strings.Index]. destruct (strings.HasPrefix [] p) eqn:E; [discriminate|].
    intros _. now rewrite P.
  - intros H. apply strings_Index_None_cons in H as [H1 H2].
    apply strings_Index_None_cons. split; [now apply P|now apply IH].
Qed.

Lemma strings_replaceLoop_fuel (old new : gostring) (f1 f2 : nat) (s : gostring) :
  old <> [] -> (length s <= f1)%nat -> (length s <= f2)%nat ->
  strings.replaceLoop f1 s old new = strings.replaceLoop f2 s old new.
Proof.
  intros Ho. revert f2 s. induction f1 as [|f1 IH]; intros f2 s H1 H2.
  - destruct s; [|cbn [length] in H1; lia]. destruct f2; [reflexivity|].
    cbn [strings.replaceLoop strings.Index]. destruct old; [congruence|reflexivity].
  - destruct f2 as [|f2].
    + destruct s; [|cbn [length] in H2; lia].
      cbn [strings.replaceLoop strings.Index]. destruct old; [congruence|reflexivity].
    + cbn [strings.replaceLoop]. destruct (strings.Index s old) as [j|] eqn:E; [|reflexivity].
      apply strings_Index_Some in E as [L _].
      assert (0 < length old)%nat by (destruct old; [congruence|cbn; lia]).
      do 2 f_equal. apply IH; rewrite length_skipn; lia.
Qed.

Lemma strings_replaceLoop_S (f : nat) (s old new : gostring) :
  strings.replaceLoop (S f) s old new
  = match strings.Index s old with
    | None => s
    | Some j =>
      firstn j s ++ new
      ++ strings.replaceLoop f (skipn (j + length old) s) old new
    end.
Proof. reflexivity. Qed.

(** The loop of [ReplaceAll], read from the left: at an instance of [old]
    write [new] and skip the instance, else copy one byte. *)
Lemma strings_replace_nil (old new : gostring) :
  strings.replaceLoop 0 [] old new = [].
Proof. reflexivity. Qed.

Lemma strings_replace_match (old new : gostring) (c : Z) (s : gostring) :
  old <> [] -> strings.HasPrefix (c :: s) old = true ->
  strings.replaceLoop (length (c :: s)) (c :: s) old new
  = new ++ strings.replaceLoop (length (skipn (length old) (c :: s)))
                               (skipn (length old) (c :: s)) old new.
Proof.
  intros Ho H. cbn [length]. rewrite strings_replaceLoop_S, strings_Index_cons, H.
  cbn [firstn app Nat.add]. f_equal.
  assert (0 < length old)%nat by (destruct old; [congruence|cbn; lia]).
  apply strings_replaceLoop_fuel; [assumption| |lia].
  rewrite length_skipn. cbn [length]. lia.
Qed.

Lemma strings_replace_none (old new s : gostring) :
  strings.Index s old = None ->
  strings.replaceLoop (length s) s old new = s.
Proof.
  intros H. destruct s as [|c s]; [reflexivity|].
  cbn [length]. now rewrite strings_replaceLoop_S, H.
Qed.

Lemma strings_replace_skip (old new : gostring) (c : Z) (s : gostring) :
  old <> [] -> strings.HasPrefix (c :: s) old = false ->
  strings.replaceLoop (length (c :: s)) (c :: s) old new
  = c :: strings.replaceLoop (length s) s old new.
Proof.
  intros Ho H. cbn [length]. rewrite strings_replaceLoop_S, strings_Index_cons, H.
  destruct (strings.Index s old) as [j|] eqn:E; cbn [option_map].
  - apply strings_Index_Some in E as E'. destruct E' as [L _].
    assert (0 < length old)%nat by (destruct old; [congruence|cbn; lia]).
    destruct s as [|d s]; [cbn [length] in L; lia|].
    cbn [length]. rewrite (strings_replaceLoop_S _ (d :: s)), E.
    cbn [firstn skipn Nat.add app]. do 3 f_equal.
    apply strings_replaceLoop_fuel; [assumption| |]; rewrite length_skipn; cbn [length] in *; lia.
  - now rewrite strings_replace_none.
Qed.

(** Induction on the length of a byte string. *)
Lemma length_ind (P : gostring -> Prop) :
  (forall s, (forall s', (length s' < length s)%nat -> P s') -> P s) ->
  forall s, P s.
Proof.
  intros H s. remember (length s) as n eqn:Hn. revert s Hn.
  induction n as [n IH] using lt_wf_ind. intros s ->.
  apply H. intros s' L. now apply (IH (length s')).
Qed.

Lemma strings_ReplaceAll_loop (s old new : gostring) :
  old <> [] -> old <> new ->
  strings.ReplaceAll s old new = strings.replaceLoop (length s) s old new.
Proof.
  intros Ho Hn. unfold strings.ReplaceAll.
  rewrite (proj2 (streq_neq old new) Hn). destruct old; [congruence|reflexivity].
Qed.

(** Without an instance of [old] the string is returned. *)
Lemma strings_ReplaceAll_none (s old new : gostring) :
  strings.Index s old = None -> strings.ReplaceAll s old new = s.
Proof.
  intros H. unfold strings.ReplaceAll. destruct (streq old new); [reflexivity|].
  pose proof (strings_Index_None_nonempty _ _ H). destruct old; [congruence|].
  now apply strings_replace_none.
Qed.

(** *** What [ReplaceAll] leaves behind *)

Section Replace.

Variables old new : gostring.
Hypothesis old_nonempty : old <> [].
Hypothesis new_nonempty : new <> [].

Local Abbreviation R s := (strings.replaceLoop (length s%list) s%list old new).

Lemma R_match (c : Z) (s : gostring) :
  strings.HasPrefix (c :: s) old = true ->
  R (c :: s) = new ++ R (skipn (length old) (c :: s)).
Proof. now apply strings_replace_match. Qed.

Lemma R_skip (c : Z) (s : gostring) :
  strings.HasPrefix (c :: s) old = false -> R (c :: s) = c :: R s.
Proof. now apply strings_replace_skip. Qed.

Lemma R_rest_shorter (c : Z) (s : gostring) :
  (length (skipn (length old) (c :: s)) < length (c :: s))%nat.
Proof.
  rewrite length_skipn. destruct old; [congruence|]. cbn [length]. lia.
Qed.

(** A prefix of the result is a prefix of the argument or holds a byte of
    [new]. *)
Lemma replace_prefix (s q : gostring) :
  strings.HasPrefix (R s) q = true ->
  strings.HasPrefix s q = true \/ exists b, In b new /\ In b q.
Proof.
  revert q. induction s as [s IH] using length_ind. intros q H.
  destruct q as [|e q]; [left; destruct s; reflexivity|].
  destruct s as [|c s]; [now left|].
  destruct (strings.HasPrefix (c :: s) old) eqn:M.
  - rewrite R_match in H by exact M.
    destruct new as [|n new']; [congruence|].
    cbn [app strings.HasPrefix] in H. apply andb_true_iff in H as [H _].
    apply Z.eqb_eq in H. right. exists n. split; left; congruence.
  - rewrite R_skip in H by exact M. cbn [strings.HasPrefix] in H.
    apply andb_true_iff in H as [H1 H2].
    destruct (IH s ltac:(cbn [length]; lia) q H2) as [P|(b & B1 & B2)].
    + left. cbn [strings.HasPrefix]. now rewrite H1, P.
    + right. exists b. split; [assumption|now right].
Qed.

Lemma Index_app_new (p X : gostring) :
  (forall b, In b new -> ~ In b p) ->
  strings.Index X p = None -> strings.Index (new ++ X) p = None.
Proof.
  intros D H. pose proof (strings_Index_None_nonempty _ _ H) as Hp.
  clear new_nonempty. induction new as [|n new' IH]; [exact H|].
  cbn [app]. apply strings_Index_None_cons. split.
  - destruct p as [|e p']; [congruence|]. cbn [strings.HasPrefix].
    destruct (Z.eqb_spec n e) as [->|]; [|reflexivity].
    exfalso. apply (D e); now left.
  - apply IH. intros b Hb. apply D. now right.
Qed.

(** An absent string stays absent when no byte of [new] occurs in it. *)
Lemma replace_keeps_none (p s : gostring) :
  (forall b, In b new -> ~ In b p) ->
  strings.Index s p = None -> strings.Index (R s) p = None.
Proof.
  intros D. induction s as [s IH] using length_ind. intros H.
  destruct s as [|c s]; [exact H|].
  destruct (strings.HasPrefix (c :: s) old) eqn:M.
  - rewrite R_match by exact M. apply Index_app_new; [exact D|].
    apply IH; [apply R_rest_shorter|]. now apply strings_Index_None_skipn.
  - pose proof H as H0. apply strings_Index_None_cons in H as [H1 H2].
    destruct (strings.HasPrefix (R (c :: s)) p) eqn:P.
    + apply replace_prefix in P as [P|(b & B1 & B2)]; [congruence|].
      now apply D in B1.
    + rewrite R_skip in * by exact M. apply strings_Index_None_cons.
      split; [exact P|]. apply IH; [cbn [length]; lia|exact H2].
Qed.

(** No instance of [old] is left when no byte of [new] occurs in [old]. *)
Lemma replace_removes (s : gostring) :
  (forall b, In b new -> ~ In b old) ->
  strings.Index (R s) old = None.
Proof.
  intros D. induction s as [s IH] using length_ind.
  destruct s as [|c s].
  - destruct old; [congruence|reflexivity].
  - destruct (strings.HasPrefix (c :: s) old) eqn:M.
    + rewrite R_match by exact M. apply Index_app_new; [exact D|].
      apply IH, R_rest_shorter.
    + destruct (strings.HasPrefix (R (c :: s)) old) eqn:P.
      * apply replace_prefix in P as [P|(b & B1 & B2)]; [congruence|].
        now apply D in B1.
      * rewrite R_skip in * by exact M. apply strings_Index_None_cons.
        split; [exact P|]. apply IH. cbn [length]. lia.
Qed.

End Replace.

(** *** [ReplaceAll] on valid UTF-8 *)

(** A decoding step that succeeds reads the same on a longer string. *)
Lemma utf8_DecodeRune_app (a b : gostring) :
  a <> [] -> utf8.isError (utf8.DecodeRune a) = false ->
  utf8.DecodeRune (a ++ b) = utf8.DecodeRune a.
Proof. clear looksLikeMojibake UnescapeString normString.
  intros Ha E.
  pose proof (utf8_EncodeRune_DecodeRune a Ha E) as F.
  pose proof (utf8_DecodeRune_width a Ha) as W.
  rewrite <- (firstn_skipn (snd (utf8.DecodeRune a)) a) at 1.
  rewrite F, <- app_assoc, utf8_DecodeRune_EncodeRune by apply utf8_DecodeRune_ValidRune.
  rewrite <- F, length_firstn, Nat.min_l by lia.
  now destruct (utf8.DecodeRune a).
Qed.

Lemma utf8_Valid_app (a b : gostring) :
  utf8.Valid a = true -> utf8.Valid (a ++ b) = utf8.Valid b.
Proof. clear looksLikeMojibake UnescapeString normString.
  induction a as [|a Ha IH] using utf8_range_ind; [reflexivity|].
  rewrite utf8_Valid_step by exact Ha. intros V.
  apply andb_true_iff in V as [E V]. apply negb_true_iff in E.
  rewrite utf8_Valid_step by (destruct a; [congruence|discriminate]).
  rewrite utf8_DecodeRune_app, E by assumption. cbn [negb andb].
  pose proof (utf8_DecodeRune_width a Ha) as W.
  rewrite skipn_app. replace (snd (utf8.DecodeRune a) - length a)%nat with 0%nat by lia.
  cbn [skipn]. now apply IH.
Qed.

(** The first rune of a string whose first step succeeds: a byte that is
    not a continuation byte, then continuation bytes. *)
Lemma utf8_chunk (s : gostring) :
  s <> [] -> utf8.isError (utf8.DecodeRune s) = false ->
  exists c k,
    s = c :: k ++ skipn (snd (utf8.DecodeRune s)) s
    /\ utf8.isCont c = false
    /\ (forall b, In b k -> utf8.isCont b = true).
Proof.
  intros Hs. unfold utf8.isError.
  pose proof (utf8_DecodeRune_spec s) as D.
  remember (fst (utf8.DecodeRune s)) as r. remember (snd (utf8.DecodeRune s)) as w.
  clear Heqr Heqw.
  assert (NC : forall c, c < 0x80 \/ 0xC0 <= c -> utf8.isCont c = false).
  { intros c Hc. unfold utf8.isCont. destruct Hc; cmp_lia; reflexivity. }
  assert (C : forall c, 0x80 <= c <= 0xBF -> utf8.isCont c = true).
  { intros c Hc. now apply utf8_isCont_spec. }
  destruct D; try congruence.
  - rewrite Z.eqb_refl. discriminate.
  - intros _. exists p0, []. repeat split; [apply NC; lia|intros b []].
  - intros _. exists p0, [b1]. repeat split; [apply NC; lia|].
    intros b [<-|[]]. now apply C.
  - intros _. exists p0, [b1; b2]. repeat split; [apply NC; lia|].
    intros b [<-|[<-|[]]]; now apply C.
  - intros _. exists p0, [b1; b2; b3]. repeat split; [apply NC; lia|].
    intros b [<-|[<-|[<-|[]]]]; now apply C.
Qed.

Lemma utf8_Valid_head (c : Z) (s : gostring) :
  utf8.Valid (c :: s) = true -> utf8.isCont c = false.
Proof.
  rewrite utf8_Valid_step by discriminate. intros V.
  apply andb_true_iff in V as [E _]. apply negb_true_iff in E.
  destruct (utf8_chunk (c :: s) ltac:(discriminate) E) as (c' & k & Eq & NC & _).
  injection Eq as -> _. exact NC.
Qed.

(** The bytes of the first rune of a valid string are valid on their own. *)
Lemma utf8_Valid_first (s : gostring) :
  s <> [] -> utf8.isError (utf8.DecodeRune s) = false ->
  utf8.Valid (firstn (snd (utf8.DecodeRune s)) s) = true.
Proof. clear looksLikeMojibake UnescapeString normString.
  intros Hs E. rewrite utf8_EncodeRune_DecodeRune by assumption.
  rewrite <- (app_nil_r (utf8.EncodeRune _)).
  apply (utf8_Valid_encodeAll [_]). intros r [<-|[]]. apply utf8_DecodeRune_ValidRune.
Qed.

Lemma Index_cont_prefix (k X p : gostring) :
  (forall b, In b k -> utf8.isCont b = true) ->
  match p with [] => False | o :: _ => utf8.isCont o = false end ->
  strings.Index X p = None -> strings.Index (k ++ X) p = None.
Proof.
  intros K P H. induction k as [|b k IH]; [exact H|].
  cbn [app]. apply strings_Index_None_cons. split.
  - destruct p as [|o p']; [destruct P|]. cbn [strings.HasPrefix].
    destruct (Z.eqb_spec b o) as [->|]; [|reflexivity].
    rewrite (K o) in P by now left. discriminate.
  - apply IH. intros b' Hb'. apply K. now right.
Qed.

Section ReplaceValid.

Variables old new : gostring.
Hypothesis old_not_nil : old <> [].
Hypothesis old_Valid : utf8.Valid old = true.
Hypothesis new_Valid : utf8.Valid new = true.

Local Abbreviation R s := (strings.replaceLoop (length s%list) s%list old new).

Lemma replace_cont_prefix (k X : gostring) :
  (forall b, In b k -> utf8.isCont b = true) -> R (k ++ X) = k ++ R X.
Proof.
  intros K. induction k as [|b k IH]; [reflexivity|].
  cbn [app]. rewrite strings_replace_skip; [|exact old_not_nil|].
  - f_equal. apply IH. intros b' Hb'. apply K. now right.
  - destruct old as [|o old']; [congruence|]. cbn [strings.HasPrefix].
    destruct (Z.eqb_spec b o) as [->|]; [|reflexivity].
    apply utf8_Valid_head in old_Valid. rewrite (K o) in old_Valid by now left.
    discriminate.
Qed.

(** Replacing a valid string by a valid string in valid UTF-8 gives valid
    UTF-8. *)
Lemma replace_Valid (s : gostring) :
  utf8.Valid s = true -> utf8.Valid (R s) = true.
Proof. clear looksLikeMojibake UnescapeString normString.
  induction s as [s IH] using length_ind. intros V.
  destruct s as [|c s]; [reflexivity|].
  destruct (strings.HasPrefix (c :: s) old) eqn:M.
  - rewrite strings_replace_match by assumption.
    rewrite utf8_Valid_app by exact new_Valid.
    apply IH; [now apply R_rest_shorter|].
    apply strings_HasPrefix_skipn in M. rewrite M in V.
    now rewrite utf8_Valid_app in V.
  - rewrite utf8_Valid_step in V by discriminate.
    apply andb_true_iff in V as [E V]. apply negb_true_iff in E.
    destruct (utf8_chunk (c :: s) ltac:(discriminate) E) as (c' & k & Eq & _ & K).
    pose proof (utf8_Valid_first (c :: s) ltac:(discriminate) E) as F.
    pose proof (utf8_DecodeRune_width (c :: s) ltac:(discriminate)) as W.
    set (rest := skipn (snd (utf8.DecodeRune (c :: s))) (c :: s)) in *.
    assert (Ek : firstn (snd (utf8.DecodeRune (c :: s))) (c :: s) = c' :: k).
    { apply (app_inv_tail rest). rewrite firstn_skipn. exact Eq. }
    injection Eq as <- Es.
    rewrite strings_replace_skip by assumption.
    rewrite Es, replace_cont_prefix by exact K.
    change (c :: k ++ R rest) with ((c :: k) ++ R rest).
    rewrite utf8_Valid_app by (rewrite <- Ek; exact F).
    apply IH; [|exact V]. unfold rest. rewrite length_skipn. lia.
Qed.

End ReplaceValid.

Lemma strings_ReplaceAll_Valid (s old new : gostring) :
  old <> [] -> utf8.Valid old = true -> utf8.Valid new = true ->
  utf8.Valid s = true -> utf8.Valid (strings.ReplaceAll s old new) = true.
Proof. clear looksLikeMojibake UnescapeString normString.
  intros Ho Vo Vn Vs. unfold strings.ReplaceAll.
  destruct (streq old new); [exact Vs|].
  destruct old as [|o old']; [congruence|].
  now apply replace_Valid.
Qed.

(** *** Runes and instances of their encoding *)

Lemma utf8_EncodeRune_head_not_cont (r : Z) :
  match utf8.EncodeRune r with [] => False | o :: _ => utf8.isCont o = false end.
Proof.
  assert (V : utf8.Valid (utf8.EncodeRune (if utf8.ValidRune r then r else utf8.RuneError)) = true).
  { rewrite <- (app_nil_r (utf8.EncodeRune _)).
    apply (utf8_Valid_encodeAll [_]). intros x [<-|[]].
    destruct (utf8.ValidRune r) eqn:E; [exact E|reflexivity]. }
  assert (E : utf8.EncodeRune (if utf8.ValidRune r then r else utf8.RuneError) = utf8.EncodeRune r).
  { destruct (utf8.ValidRune r) eqn:Vr; [reflexivity|].
    assert (B : r < 0 \/ 0xD800 <= r <= 0xDFFF \/ 0x10FFFF < r).
    { destruct (Z_lt_dec r 0); [now left|]. right.
      destruct (Z_le_dec r 0x10FFFF); [|right; lia]. left.
      destruct (Z_lt_dec r 0xD800).
      - rewrite (proj2 (utf8_ValidRune_spec r)) in Vr by lia. discriminate.
      - destruct (Z_lt_dec 0xDFFF r); [|lia].
        rewrite (proj2 (utf8_ValidRune_spec r)) in Vr by lia. discriminate. }
    unfold utf8.EncodeRune. unfold_utf8.
    destruct B as [B|[B|B]]; cmp_lia; reflexivity. }
  rewrite E in V. destruct (utf8.EncodeRune r) as [|o t] eqn:En.
  - now apply utf8_EncodeRune_nonempty in En.
  - now apply utf8_Valid_head in V.
Qed.

(** In valid UTF-8 the encoding of a rune occurs only where the rune is. *)
Lemma utf8_Index_None_runes (s : gostring) (r0 : Z) :
  utf8.Valid s = true -> utf8.ValidRune r0 = true ->
  ~ In r0 (utf8.runes s) -> strings.Index s (utf8.EncodeRune r0) = None.
Proof.
  intros V V0. induction s as [|s Hs IH] using utf8_range_ind; intros N.
  - cbn [strings.Index]. pose proof (utf8_EncodeRune_nonempty r0).
    destruct (utf8.EncodeRune r0); [congruence|reflexivity].
  - rewrite utf8_Valid_step in V by exact Hs.
    apply andb_true_iff in V as [E V]. apply negb_true_iff in E.
    rewrite utf8_runes_step in N by exact Hs.
    destruct (utf8_chunk s Hs E) as (c & k & Eq & _ & K).
    assert (I : strings.Index (skipn (snd (utf8.DecodeRune s)) s) (utf8.EncodeRune r0) = None).
    { apply IH; [exact V|]. intros H. apply N. now right. }
    assert (P : strings.HasPrefix s (utf8.EncodeRune r0) = false).
    { destruct (strings.HasPrefix s (utf8.EncodeRune r0)) eqn:P; [|reflexivity].
      apply strings_HasPrefix_app in P as (x & P). exfalso. apply N. left.
      rewrite P, utf8_DecodeRune_EncodeRune by exact V0. reflexivity. }
    rewrite Eq. rewrite Eq in P. apply strings_Index_None_cons. split; [exact P|].
    apply Index_cont_prefix; [exact K|apply utf8_EncodeRune_head_not_cont|exact I].
Qed.

(** A rune of the range loop, other than the error rune, has its encoding
    in the string. *)
Lemma utf8_runes_Index (s : gostring) (r0 : Z) :
  r0 <> utf8.RuneError -> In r0 (utf8.runes s) ->
  strings.Index s (utf8.EncodeRune r0) <> None.
Proof. clear looksLikeMojibake UnescapeString normString.
  intros Hr. induction s as [|s Hs IH] using utf8_range_ind; [intros []|].
  rewrite utf8_runes_step by exact Hs. intros [H|H] I.
  - assert (E : utf8.isError (utf8.DecodeRune s) = false).
    { unfold utf8.isError. rewrite H. now rewrite (proj2 (Z.eqb_neq _ _) Hr). }
    pose proof (utf8_EncodeRune_DecodeRune s Hs E) as F. rewrite H in F.
    destruct s as [|c s]; [congruence|].
    apply strings_Index_None_cons in I as [P _].
    assert (T : strings.HasPrefix (c :: s) (utf8.EncodeRune r0) = true).
    { apply strings_HasPrefix_app. eexists. rewrite <- F. symmetry. apply firstn_skipn. }
    congruence.
  - apply (IH H). now apply strings_Index_None_skipn.
Qed.

(** ** Line breaks *)

Lemma strings_ReplaceAll_removes (s old new : gostring) :
  old <> [] -> new <> [] -> old <> new ->
  (forall b, In b new -> ~ In b old) ->
  strings.Index (strings.ReplaceAll s old new) old = None.
Proof.
  intros Ho Hn Hd D. rewrite strings_ReplaceAll_loop by assumption.
  now apply replace_removes.
Qed.

Lemma strings_ReplaceAll_keeps (s old new p : gostring) :
  old <> [] -> new <> [] ->
  (forall b, In b new -> ~ In b p) ->
  strings.Index s p = None ->
  strings.Index (strings.ReplaceAll s old new) p = None.
Proof.
  intros Ho Hn D H. unfold strings.ReplaceAll.
  destruct (streq old new); [exact H|].
  destruct old as [|o old']; [congruence|]. now apply replace_keeps_none.
Qed.

Ltac newline_disjoint :=
  let b := fresh in let H := fresh in
  intros b [<-|[]] H; cbn in H; decompose [or] H; try discriminate; assumption.

(** After [fixLineBreaks] the text holds no carriage return and no
    encoding of U+2028 or U+2029. *)
Lemma fixLineBreaks_Index (text : gostring) :
  strings.Index (fixLineBreaks text) [0x0D] = None
  /\ strings.Index (fixLineBreaks text) (utf8.EncodeRune 0x2028) = None
  /\ strings.Index (fixLineBreaks text) (utf8.EncodeRune 0x2029) = None.
Proof.
  unfold fixLineBreaks.
  set (s1 := strings.ReplaceAll text [0x0D; 0x0A] [0x0A]).
  set (s2 := strings.ReplaceAll s1 [0x0D] [0x0A]).
  set (s3 := strings.ReplaceAll s2 (utf8.EncodeRune 0x2028) [0x0A]).
  assert (A2 : strings.Index s2 [0x0D] = None).
  { apply strings_ReplaceAll_removes; try discriminate. newline_disjoint. }
  assert (A3 : strings.Index s3 [0x0D] = None).
  { apply strings_ReplaceAll_keeps; try discriminate; [newline_disjoint|exact A2]. }
  assert (B3 : strings.Index s3 (utf8.EncodeRune 0x2028) = None).
  { apply strings_ReplaceAll_removes; try discriminate. newline_disjoint. }
  repeat split.
  - apply strings_ReplaceAll_keeps; try discriminate; [newline_disjoint|exact A3].
  - apply strings_ReplaceAll_keeps; try discriminate; [newline_disjoint|exact B3].
  - apply strings_ReplaceAll_removes; try discriminate. newline_disjoint.
Qed.

(** The runes [fixLineBreaks] rewrites. *)
Lemma fixLineBreaks_runes (text : gostring) (r : Z) :
  In r (utf8.runes (fixLineBreaks text)) ->
  r <> 0x0D /\ r <> 0x2028 /\ r <> 0x2029.
Proof. clear looksLikeMojibake UnescapeString normString.
  intros H. destruct (fixLineBreaks_Index text) as (A & B & C).
  repeat split; intros ->;
    (eapply utf8_runes_Index; [|exact H|]; [discriminate|assumption]).
Qed.

Lemma fixLineBreaks_Valid (text : gostring) :
  utf8.Valid text = true -> utf8.Valid (fixLineBreaks text) = true.
Proof. clear looksLikeMojibake UnescapeString normString.
  intros V. unfold fixLineBreaks.
  repeat (apply strings_ReplaceAll_Valid; [discriminate|reflexivity|reflexivity|]).
  exact V.
Qed.

Lemma fixLineBreaks_fixed (text : gostring) :
  utf8.Valid text = true ->
  (forall r, In r (utf8.runes text) -> r <> 0x0D /\ r <> 0x2028 /\ r <> 0x2029) ->
  fixLineBreaks text = text.
Proof.
  intros V N.
  assert (A : strings.Index text [0x0D] = None).
  { apply (utf8_Index_None_runes text 0x0D V eq_refl). intros H. now apply N in H. }
  assert (B : strings.Index text (utf8.EncodeRune 0x2028) = None).
  { apply (utf8_Index_None_runes text 0x2028 V eq_refl). intros H. now apply N in H. }
  assert (C : strings.Index text (utf8.EncodeRune 0x2029) = None).
  { apply (utf8_Index_None_runes text 0x2029 V eq_refl). intros H. now apply N in H. }
  unfold fixLineBreaks.
  rewrite (strings_ReplaceAll_none text [0x0D; 0x0A])
    by apply (strings_Index_None_app text [0x0D] [0x0A] A).
  rewrite (strings_ReplaceAll_none text [0x0D]) by exact A.
  rewrite (strings_ReplaceAll_none text (utf8.EncodeRune 0x2028)) by exact B.
  now rewrite (strings_ReplaceAll_none text (utf8.EncodeRune 0x2029)) by exact C.
Qed.

(** ** ASCII text *)

Lemma utf8_decodeAll_ascii (s : gostring) :
  (forall b, In b s -> 0 <= b < 0x80) ->
  utf8.decodeAll s = map (fun b => (b, 1%nat)) s.
Proof.
  induction s as [|c s IH]; intros A; [reflexivity|].
  rewrite utf8_decodeAll_step by discriminate.
  assert (D : utf8.DecodeRune (c :: s) = (c, 1%nat)).
  { pose proof (A c (or_introl eq_refl)). unfold utf8.DecodeRune, utf8.RuneSelf.
    cmp_lia. reflexivity. }
  rewrite D. cbn [snd skipn map]. f_equal. apply IH. intros b Hb. apply A. now right.
Qed.

Lemma utf8_runes_ascii (s : gostring) :
  (forall b, In b s -> 0 <= b < 0x80) -> utf8.runes s = s.
Proof.
  intros A. unfold utf8.runes. rewrite utf8_decodeAll_ascii by exact A.
  rewrite map_map. cbn [fst]. apply map_id.
Qed.

Lemma utf8_Valid_ascii (s : gostring) :
  (forall b, In b s -> 0 <= b < 0x80) -> utf8.Valid s = true.
Proof.
  intros A. unfold utf8.Valid. rewrite utf8_decodeAll_ascii by exact A.
  apply forallb_forall. intros rw H. apply in_map_iff in H as (b & <- & Hb).
  apply A in Hb. unfold utf8.isError, utf8.RuneError. cbn [fst snd]. cmp_lia. reflexivity.
Qed.

Lemma strings_Contains_byte (s : gostring) (b : Z) :
  ~ In b s -> strings.Contains s [b] = false.
Proof.
  intros N. unfold strings.Contains.
  assert (I : strings.Index s [b] = None).
  { induction s as [|c s IH]; [reflexivity|].
    apply strings_Index_None_cons. split.
    - cbn [strings.HasPrefix]. destruct (Z.eqb_spec c b) as [->|]; [|reflexivity].
      exfalso. apply N. now left.
    - apply IH. intros H. apply N. now right. }
  now rewrite I.
Qed.

(** ** The default pipeline *)

Lemma Fix_eq (text : gostring) :
  Fix text
  = normString NFC
      (fixControlChars
         (fixLineBreaks (fixHTMLEntities (fixEncoding (fixSurrogates text))))).
Proof. reflexivity. Qed.

Lemma NFC_keeps_latin_b (s : gostring) :
  NFC_keeps_latin normString ->
  utf8.Valid s = true -> forallb (fun r => r <? 0x300) (utf8.runes s) = true ->
  normString NFC s = s.
Proof.
  intros L V B. apply L; [exact V|]. intros r Hr.
  rewrite forallb_forall in B. apply B in Hr. now apply Z.ltb_lt in Hr.
Qed.

(** C5, as amended.  The default pipeline returns ASCII text as it is when
    the text has no ampersand, no carriage return and no control character
    other than tab and newline. *)
Theorem Fix_ascii_clean (text : gostring) :
  NFC_keeps_latin normString ->
  (forall b, In b text ->
             (0x20 <= b < 0x7F \/ b = 0x09 \/ b = 0x0A) /\ b <> 0x26) ->
  Fix text = text.
Proof.
  intros L A.
  assert (Asc : forall b, In b text -> 0 <= b < 0x80) by (intros b Hb; apply A in Hb; lia).
  pose proof (utf8_Valid_ascii text Asc) as V.
  pose proof (utf8_runes_ascii text Asc) as Rn.
  rewrite Fix_eq, fixSurrogates_fixed by exact V.
  rewrite fixEncoding_of_decodeMojibake_fixed.
  2:{ apply decodeMojibake_fixed. rewrite Rn. intros r Hr. apply Asc in Hr. lia. }
  unfold fixHTMLEntities. change (go "&") with [0x26].
  rewrite strings_Contains_byte by (intros H; now apply A in H). cbn [negb].
  rewrite fixLineBreaks_fixed; [|exact V|rewrite Rn; intros r Hr; apply A in Hr; lia].
  rewrite fixControlChars_fixed; [|exact V|].
  2:{ rewrite Rn. intros r Hr. apply A in Hr. unfold stripped.
      destruct Hr as [[H|[->| ->]] _]; [cmp_lia|..]; reflexivity. }
  apply L; [exact V|]. rewrite Rn. intros r Hr. apply Asc in Hr. lia.
Qed.


(** C10.  A zero problem count does not make the text valid: the line
    separator U+2028 is rewritten to a newline, one code point for one. *)
Theorem CountProblems_zero_not_IsValid :
  NFC_keeps_latin normString ->
  exists text, Fix text <> text /\ IsValid text = false /\ CountProblems text = 0.
Proof.
  intros L. exists (utf8.EncodeRune 0x2028).
  assert (F : Fix (utf8.EncodeRune 0x2028) = [0x0A]).
  { rewrite Fix_eq.
    replace (fixSurrogates (utf8.EncodeRune 0x2028)) with (utf8.EncodeRune 0x2028)
      by (vm_compute; reflexivity).
    rewrite fixEncoding_of_decodeMojibake_fixed by (vm_compute; reflexivity).
    replace (fixHTMLEntities (utf8.EncodeRune 0x2028)) with (utf8.EncodeRune 0x2028)
      by (vm_compute; reflexivity).
    replace (fixControlChars (fixLineBreaks (utf8.EncodeRune 0x2028))) with [0x0A]
      by (vm_compute; reflexivity).
    apply NFC_keeps_latin_b; [exact L|reflexivity|reflexivity]. }
  unfold IsValid, CountProblems. rewrite F.
  split; [|split].
  - intros X. vm_compute in X. discriminate.
  - vm_compute. reflexivity.
  - vm_compute. reflexivity.
Qed.

(** C6.  Whatever the bytes of the input, every stage of the default pipeline
    hands on valid UTF-8, and so does [Fix]; no rune of the result is a
    surrogate; and the encoding stage returns a different string only when
    that string is valid. *)
Theorem Fix_Valid (text : gostring) :
  Unescape_keeps_Valid UnescapeString -> norm_keeps_Valid normString ->
  let s := fixSurrogates text in
  let e := fixEncoding s in
  let h := fixHTMLEntities e in
  let l := fixLineBreaks h in
  let c := fixControlChars l in
  utf8.Valid s = true /\ utf8.Valid e = true /\ utf8.Valid h = true
  /\ utf8.Valid l = true /\ utf8.Valid c = true
  /\ utf8.Valid (Fix text) = true
  /\ (forall r, In r (utf8.runes (Fix text)) -> utf8.isSurrogate r = false)
  /\ (forall x, fixEncoding x <> x -> utf8.Valid (fixEncoding x) = true).
Proof.
  intros HU HN s e h l c.
  assert (Vs : utf8.Valid s = true) by apply fixSurrogates_Valid.
  assert (Ve : utf8.Valid e = true) by now apply fixEncoding_Valid.
  assert (Vh : utf8.Valid h = true).
  { unfold h, fixHTMLEntities. destruct (negb (strings.Contains e (go "&"))); [exact Ve|].
    now apply HU. }
  assert (Vl : utf8.Valid l = true) by now apply fixLineBreaks_Valid.
  assert (Vc : utf8.Valid c = true) by apply fixControlChars_Valid.
  repeat split; try assumption.
  - rewrite Fix_eq. now apply HN.
  - intros r Hr. apply utf8_runes_bounds in Hr. unfold utf8.isSurrogate.
    destruct Hr; cmp_lia; reflexivity.
  - apply fixEncoding_changed_Valid.
Qed.

(** C2, as amended.  Applying the default pipeline to its own output changes
    nothing whenever the encoding stage and the entity stage leave that
    output as it is. *)
Theorem Fix_idempotent_when (text : gostring) :
  norm_keeps_Valid normString -> NFC_idempotent normString -> NFC_inert normString ->
  fixEncoding (Fix text) = Fix text ->
  fixHTMLEntities (Fix text) = Fix text ->
  Fix (Fix text) = Fix text.
Proof.
  intros HV HI HN E H.
  set (l := fixLineBreaks (fixHTMLEntities (fixEncoding (fixSurrogates text)))).
  set (c := fixControlChars l).
  assert (U : Fix text = normString NFC c) by apply Fix_eq.
  assert (Vc : utf8.Valid c = true) by apply fixControlChars_Valid.
  assert (Vu : utf8.Valid (Fix text) = true) by (rewrite U; now apply HV).
  assert (Rc : forall r, In r (utf8.runes c) ->
                         stripped r = false /\ r <> 0x0D /\ r <> 0x2028 /\ r <> 0x2029).
  { intros r Hr. unfold c in Hr. rewrite fixControlChars_runes in Hr.
    apply filter_In in Hr as [Hr S]. apply negb_true_iff in S.
    split; [exact S|]. exact (fixLineBreaks_runes _ r Hr). }
  assert (Ru : forall r, In r (utf8.runes (Fix text)) ->
                         stripped r = false /\ r <> 0x0D /\ r <> 0x2028 /\ r <> 0x2029).
  { intros r Hr. rewrite U in Hr.
    destruct (stripped r) eqn:S.
    { apply (HN c r Vc) in Hr; [|now left]. apply Rc in Hr. destruct Hr; congruence. }
    split; [reflexivity|].
    repeat split; intros ->;
      (apply (HN c _ Vc) in Hr; [apply Rc in Hr; intuition congruence|tauto]). }
  rewrite (Fix_eq (Fix text)).
  rewrite fixSurrogates_fixed by exact Vu. rewrite E, H.
  rewrite fixLineBreaks_fixed; [|exact Vu|intros r Hr; now apply Ru in Hr].
  rewrite fixControlChars_fixed; [|exact Vu|intros r Hr; now apply Ru in Hr].
  rewrite U. now apply HI.
Qed.

(* ================================================================== *)
(** * Further properties of the stages *)

(** ** [fixSurrogates] and [HasSurrogates] *)

(** X1.  [fixSurrogates] keeps the runes of the text as the range loop sees
    them and writes valid UTF-8: an invalid byte becomes the encoding of
    U+FFFD and nothing else changes. *)
Theorem fixSurrogates_keeps_runes (text : gostring) :
  utf8.runes (fixSurrogates text) = utf8.runes text
  /\ utf8.Valid (fixSurrogates text) = true.
Proof.
  split; [|apply fixSurrogates_Valid].
  rewrite fixSurrogates_encodeAll.
  apply utf8_runes_encodeAll, utf8_runes_ValidRune.
Qed.

(** X2.  [fixSurrogates] returns its argument exactly when the argument is
    valid UTF-8, and applying it twice is the same as applying it once. *)
Theorem fixSurrogates_fixed_iff (text : gostring) :
  (fixSurrogates text = text <-> utf8.Valid text = true)
  /\ fixSurrogates (fixSurrogates text) = fixSurrogates text.
Proof. clear looksLikeMojibake UnescapeString normString.
  split.
  - split; [|apply fixSurrogates_fixed].
    intros E. rewrite <- E. apply fixSurrogates_Valid.
  - apply fixSurrogates_fixed, fixSurrogates_Valid.
Qed.

(** X3.  [HasSurrogates] is false on every string: the range loop decodes
    the bytes of an encoded surrogate as encoding errors, so the test of the
    loop body never succeeds. *)
Theorem HasSurrogates_never (text : gostring) : HasSurrogates text = false.
Proof.
  unfold HasSurrogates.
  destruct (existsb _ (utf8.runes text)) eqn:E; [|reflexivity].
  apply existsb_exists in E as (r & Hr & S).
  apply utf8_runes_bounds in Hr.
  apply andb_true_iff in S as [S1 S2]. apply Z.leb_le in S1, S2. lia.
Qed.

(** ** [fixControlChars] *)

(** X4.  The runes of the output of [fixControlChars] are the runes of the
    text without the stripped ones, in the same order, and the output is
    valid UTF-8 whatever the bytes of the text. *)
Theorem fixControlChars_filters (text : gostring) :
  utf8.runes (fixControlChars text)
  = filter (fun r => negb (stripped r)) (utf8.runes text)
  /\ utf8.Valid (fixControlChars text) = true
  /\ (forall r, In r (utf8.runes (fixControlChars text)) ->
                r = 0x09 \/ r = 0x0A \/ r = 0x0D \/ 0x20 <= r < 0x7F \/ 0x9F < r).
Proof.
  split; [apply fixControlChars_runes|]. split; [apply fixControlChars_Valid|].
  intros r Hr. rewrite fixControlChars_runes in Hr.
  apply filter_In in Hr as [Hr S]. apply utf8_runes_bounds in Hr.
  apply negb_true_iff in S. unfold stripped in S.
  destruct (Z.eq_dec r 9); [lia|]. destruct (Z.eq_dec r 10); [lia|].
  destruct (Z.eq_dec r 13); [lia|].
  rewrite (proj2 (Z.eqb_neq r 9)), (proj2 (Z.eqb_neq r 10)), (proj2 (Z.eqb_neq r 13)) in S
    by assumption.
  cbn [orb negb andb] in S. apply orb_false_iff in S as [S1 S2].
  apply Z.ltb_ge in S1. apply andb_false_iff in S2 as [S2|S2]; apply Z.leb_gt in S2; lia.
Qed.

(** X5.  [fixControlChars] returns its argument exactly when the argument
    is valid UTF-8 without a stripped rune, and applying it twice is the
    same as applying it once. *)
Theorem fixControlChars_fixed_iff (text : gostring) :
  (fixControlChars text = text <->
   utf8.Valid text = true
   /\ forall r, In r (utf8.runes text) -> stripped r = false)
  /\ fixControlChars (fixControlChars text) = fixControlChars text.
Proof. clear looksLikeMojibake UnescapeString normString.
  assert (K : forall t r, In r (utf8.runes (fixControlChars t)) -> stripped r = false).
  { intros t r Hr. rewrite fixControlChars_runes in Hr.
    apply filter_In in Hr as [_ S]. now apply negb_true_iff in S. }
  split.
  - split.
    + intros E. split; [rewrite <- E; apply fixControlChars_Valid|].
      intros r Hr. rewrite <- E in Hr. now apply K in Hr.
    + intros [V N]. now apply fixControlChars_fixed.
  - apply fixControlChars_fixed; [apply fixControlChars_Valid|apply K].
Qed.

(** ** [fixLineBreaks] *)

Lemma strings_Index_byte_None (s : gostring) (b : Z) :
  strings.Index s [b] = None <-> ~ In b s.
Proof.
  induction s as [|c s IH].
  - split; [intros _ []|reflexivity].
  - rewrite strings_Index_None_cons, IH. cbn [strings.HasPrefix In].
    destruct (Z.eqb_spec c b) as [->|N].
    + split; [intros [D _]; destruct s; discriminate|intros H; exfalso; apply H; now left].
    + split; [intros [_ H] [E|I]; [congruence|contradiction]|].
      intros H. split; [destruct s; reflexivity|]. intros I. apply H. now right.
Qed.

Lemma fixLineBreaks_of_Index (text : gostring) :
  strings.Index text [0x0D] = None ->
  strings.Index text (utf8.EncodeRune 0x2028) = None ->
  strings.Index text (utf8.EncodeRune 0x2029) = None ->
  fixLineBreaks text = text.
Proof.
  intros A B C. unfold fixLineBreaks.
  rewrite (strings_ReplaceAll_none text [0x0D; 0x0A])
    by apply (strings_Index_None_app text [0x0D] [0x0A] A).
  rewrite (strings_ReplaceAll_none text [0x0D]) by exact A.
  rewrite (strings_ReplaceAll_none text (utf8.EncodeRune 0x2028)) by exact B.
  now rewrite (strings_ReplaceAll_none text (utf8.EncodeRune 0x2029)) by exact C.
Qed.

(** X6.  Whatever the bytes of the text, the output of [fixLineBreaks] has
    no carriage return byte, and the range loop over it yields neither
    U+2028 nor U+2029. *)
Theorem fixLineBreaks_no_breaks (text : gostring) :
  ~ In 0x0D (fixLineBreaks text)
  /\ forall r, In r (utf8.runes (fixLineBreaks text)) ->
               r <> 0x0D /\ r <> 0x2028 /\ r <> 0x2029.
Proof. clear looksLikeMojibake UnescapeString normString.
  split.
  - apply strings_Index_byte_None. apply fixLineBreaks_Index.
  - intros r Hr. exact (fixLineBreaks_runes text r Hr).
Qed.

(** X7.  [fixLineBreaks] is idempotent on every byte string. *)
Theorem fixLineBreaks_idempotent (text : gostring) :
  fixLineBreaks (fixLineBreaks text) = fixLineBreaks text.
Proof.
  destruct (fixLineBreaks_Index text) as (A & B & C).
  now apply fixLineBreaks_of_Index.
Qed.

(** X8.  On valid UTF-8, [fixLineBreaks] keeps the text valid, and returns
    it as it is exactly when it has no carriage return, U+2028 or U+2029. *)
Theorem fixLineBreaks_fixed_iff (text : gostring) :
  utf8.Valid text = true ->
  utf8.Valid (fixLineBreaks text) = true
  /\ (fixLineBreaks text = text <->
      forall r, In r (utf8.runes text) -> r <> 0x0D /\ r <> 0x2028 /\ r <> 0x2029).
Proof. clear looksLikeMojibake UnescapeString normString.
  intros V. split; [now apply fixLineBreaks_Valid|]. split.
  - intros E r Hr. rewrite <- E in Hr. exact (fixLineBreaks_runes text r Hr).
  - now apply fixLineBreaks_fixed.
Qed.

(** ** [fixEncoding], run again and again *)

Lemma countNonASCII_nonneg (s : gostring) : 0 <= countNonASCII s.
Proof. rewrite countNonASCII_filter. lia. Qed.

Lemma fixEncoding_changed (text : gostring) :
  fixEncoding text <> text ->
  fixEncoding text = reconstruction text
  /\ utf8.Valid (fixEncoding text) = true
  /\ countNonASCII (fixEncoding text) < countNonASCII text.
Proof.
  intros N. pose proof (fixEncoding_changed_Valid text N) as V.
  rewrite fixEncoding_eq in *.
  destruct (utf8.Valid text && negb (looksLikeMojibake text)); [congruence|].
  rewrite decodeMojibake_eq in *.
  destruct (utf8.Valid (reconstruction text)); cbn [andb] in *; [|congruence].
  destruct (Z.ltb_spec (countNonASCII (reconstruction text)) (countNonASCII text));
    [|congruence].
  repeat split; assumption.
Qed.

(** X9.  When the encoding stage changes the text, the result is the byte
    reconstruction, it is valid UTF-8, and it has strictly fewer code points
    above 127 than the text. *)
Theorem fixEncoding_reduces (text : gostring) :
  fixEncoding text <> text ->
  fixEncoding text = reconstruction text
  /\ utf8.Valid (fixEncoding text) = true
  /\ countNonASCII (fixEncoding text) < countNonASCII text.
Proof. apply fixEncoding_changed. Qed.

Lemma fixEncoding_iter_of_fixed (k : nat) (text : gostring) :
  fixEncoding text = text -> Nat.iter k fixEncoding text = text.
Proof.
  intros E. induction k as [|k IH]; [reflexivity|].
  rewrite Nat.iter_succ, IH. exact E.
Qed.

(** X10.  Running the encoding stage again and again reaches a fixed point
    after at most as many runs as the text has code points above 127. *)
Theorem fixEncoding_iter_fixed (n : nat) (text : gostring) :
  countNonASCII text <= Z.of_nat n ->
  fixEncoding (Nat.iter n fixEncoding text) = Nat.iter n fixEncoding text.
Proof.
  revert text. induction n as [|n IH]; intros text H.
  - cbn [Nat.iter nat_rect].
    destruct (streq (fixEncoding text) text) eqn:E; [now apply streq_eq|].
    apply streq_neq, fixEncoding_changed in E as (_ & _ & L).
    pose proof (countNonASCII_nonneg (fixEncoding text)). lia.
  - destruct (streq (fixEncoding text) text) eqn:E.
    + apply streq_eq in E. now rewrite fixEncoding_iter_of_fixed.
    + apply streq_neq, fixEncoding_changed in E as (_ & _ & L).
      rewrite Nat.iter_succ, <- Nat.iter_swap. apply IH. lia.
Qed.

(** ** A lead character that blocks the repair *)

(** A byte of 0xC0 and above that is not followed by a continuation byte
    makes the whole string invalid, wherever it stands. *)
Lemma utf8_Valid_lonely (a : gostring) (b : Z) (c : gostring) :
  0xC0 <= b ->
  match c with [] => True | d :: _ => utf8.isCont d = false end ->
  utf8.Valid (a ++ b :: c) = false.
Proof.
  intros Hb Hc. induction a as [a IH] using length_ind.
  destruct a as [|x a].
  - cbn [app]. rewrite utf8_Valid_step by discriminate.
    rewrite utf8_DecodeRune_lonely by (assumption || lia). reflexivity.
  - cbn [app]. rewrite utf8_Valid_step by discriminate.
    destruct (utf8.isError (utf8.DecodeRune (x :: a ++ b :: c))) eqn:E; [reflexivity|].
    cbn [negb andb].
    destruct (utf8_chunk (x :: a ++ b :: c) ltac:(discriminate) E) as (c0 & k & Eq & _ & K).
    set (rest := skipn _ _) in *.
    injection Eq as _ Eq. symmetry in Eq.
    apply app_eq_app in Eq as (l & [[E1 E2]|[E1 E2]]).
    + destruct l as [|y l].
      * rewrite app_nil_r in E1. cbn [app] in E2. rewrite <- E2.
        apply (IH []). cbn [length]. lia.
      * injection E2 as <- _.
        assert (C : utf8.isCont b = true) by (apply K; rewrite E1; apply in_or_app; right; now left).
        apply utf8_isCont_spec in C. lia.
    + rewrite E2. apply IH. rewrite E1. cbn [length]. rewrite length_app. lia.
Qed.

Lemma reconstruction_first (r : Z) (rs : list Z) :
  utf8.ValidRune r = true -> ~ 0x80 <= r <= 0xBF ->
  match flat_map (fun r => if r <? 256 then [r] else utf8.EncodeRune r) (r :: rs) with
  | [] => True
  | b :: _ => utf8.isCont b = false
  end.
Proof.
  intros V N.
  pose proof (reconstruction_head [r]) as H. cbn [flat_map] in *.
  rewrite app_nil_r in H.
  assert (H' : match (if r <? 256 then [r] else utf8.EncodeRune r) with
               | [] => True | b :: _ => utf8.isCont b = false end).
  { apply H; intros x [<-|[]]; assumption. }
  destruct (if r <? 256 then [r] else utf8.EncodeRune r) eqn:G; [|exact H'].
  exfalso. destruct (r <? 256); [discriminate|].
  now apply utf8_EncodeRune_nonempty in G.
Qed.

(** X11.  Repair is all or nothing: a rune in U+00C0..U+00FF that is the
    last rune of the text, or is followed by a rune outside U+0080..U+00BF,
    makes the reconstruction invalid, and the encoding stage returns the
    whole text as it is, mojibake elsewhere in it included. *)
Theorem fixEncoding_blocked (text : gostring) (pre : list Z) (r1 : Z) (post : list Z) :
  utf8.runes text = pre ++ r1 :: post ->
  0xC0 <= r1 <= 0xFF ->
  match post with [] => True | r2 :: _ => ~ 0x80 <= r2 <= 0xBF end ->
  utf8.Valid (reconstruction text) = false
  /\ decodeMojibake text = text
  /\ fixEncoding text = text.
Proof.
  intros E H1 H2.
  assert (V : utf8.Valid (reconstruction text) = false).
  { unfold reconstruction. rewrite E, flat_map_app. cbn [flat_map].
    replace (r1 <? 256) with true by (symmetry; apply Z.ltb_lt; lia).
    cbn [app]. apply utf8_Valid_lonely; [lia|].
    destruct post as [|r2 post]; [exact I|].
    apply reconstruction_first; [|exact H2].
    apply (utf8_runes_ValidRune text). rewrite E. apply in_or_app. right. right. now left. }
  assert (D : decodeMojibake text = text) by (now rewrite decodeMojibake_eq, V).
  repeat split; [exact V|exact D|now apply fixEncoding_of_decodeMojibake_fixed].
Qed.

(** ** What the default pipeline returns *)

Lemma Fix_runes_clean (text : gostring) (r : Z) :
  NFC_inert normString ->
  In r (utf8.runes (Fix text)) ->
  stripped r = false /\ r <> 0x0D /\ r <> 0x2028 /\ r <> 0x2029.
Proof.
  intros HN Hr. rewrite Fix_eq in Hr.
  set (l := fixLineBreaks (fixHTMLEntities (fixEncoding (fixSurrogates text)))) in *.
  pose proof (fixControlChars_Valid l) as Vc.
  assert (Rc : forall x, In x (utf8.runes (fixControlChars l)) ->
                         stripped x = false /\ x <> 0x0D /\ x <> 0x2028 /\ x <> 0x2029).
  { intros x Hx. rewrite fixControlChars_runes in Hx.
    apply filter_In in Hx as [Hx S]. apply negb_true_iff in S.
    split; [exact S|]. exact (fixLineBreaks_runes _ x Hx). }
  destruct (stripped r) eqn:S.
  { apply (HN _ r Vc) in Hr; [|now left]. apply Rc in Hr. destruct Hr; congruence. }
  split; [reflexivity|].
  repeat split; intros ->;
    (apply (HN _ _ Vc) in Hr; [apply Rc in Hr; intuition congruence|tauto]).
Qed.

(** X12.  The output of [Fix] has no C0 or C1 control character other than
    tab and newline, no DEL, no carriage return and no U+2028 or U+2029,
    given that NFC introduces none of them. *)
Theorem Fix_output_clean (text : gostring) (r : Z) :
  NFC_inert normString ->
  In r (utf8.runes (Fix text)) ->
  (r = 0x09 \/ r = 0x0A \/ 0x20 <= r < 0x7F \/ 0x9F < r)
  /\ r <> 0x2028 /\ r <> 0x2029.
Proof.
  intros HN Hr. destruct (Fix_runes_clean text r HN Hr) as (S & A & B & C).
  split; [|now split].
  apply utf8_runes_bounds in Hr. unfold stripped in S.
  destruct (Z.eq_dec r 9); [lia|]. destruct (Z.eq_dec r 10); [lia|].
  rewrite (proj2 (Z.eqb_neq r 9)), (proj2 (Z.eqb_neq r 10)), (proj2 (Z.eqb_neq r 13)) in S
    by assumption.
  cbn [orb negb andb] in S. apply orb_false_iff in S as [S1 S2].
  apply Z.ltb_ge in S1. apply andb_false_iff in S2 as [S2|S2]; apply Z.leb_gt in S2; lia.
Qed.

(** X13.  Text that [IsValid] accepts is valid UTF-8 and free of the code
    points the pipeline removes or rewrites, given that normalization keeps
    valid UTF-8 valid and NFC introduces no control or line-break code
    point. *)
Theorem IsValid_sound (text : gostring) :
  norm_keeps_Valid normString -> NFC_inert normString ->
  IsValid text = true ->
  utf8.Valid text = true
  /\ forall r, In r (utf8.runes text) ->
               stripped r = false /\ r <> 0x0D /\ r <> 0x2028 /\ r <> 0x2029.
Proof.
  intros HV HN I. unfold IsValid in I. apply streq_eq in I.
  split.
  - rewrite <- I, Fix_eq. apply HV, fixControlChars_Valid.
  - intros r Hr. rewrite <- I in Hr. now apply (Fix_runes_clean text r).
Qed.

(** ** [HasReplacementChars] and [AnalyzeString] *)

(** Where the encoding of a rune occurs, the range loop yields the rune or
    reports an encoding error. *)
Lemma utf8_Index_runes (s : gostring) (r0 : Z) :
  utf8.ValidRune r0 = true ->
  strings.Index s (utf8.EncodeRune r0) <> None ->
  In r0 (utf8.runes s) \/ In utf8.RuneError (utf8.runes s).
Proof.
  intros V0. induction s as [|s Hs IH] using utf8_range_ind; intros I.
  - exfalso. apply I. cbn [strings.Index]. pose proof (utf8_EncodeRune_nonempty r0).
    destruct (utf8.EncodeRune r0); [congruence|reflexivity].
  - rewrite utf8_runes_step by exact Hs.
    destruct (utf8.isError (utf8.DecodeRune s)) eqn:E.
    { right. left. unfold utf8.isError in E. apply andb_true_iff in E as [E _].
      now apply Z.eqb_eq in E. }
    destruct (strings.HasPrefix s (utf8.EncodeRune r0)) eqn:P.
    { left. left. apply strings_HasPrefix_app in P as (x & ->).
      now rewrite utf8_DecodeRune_EncodeRune. }
    destruct (utf8_chunk s Hs E) as (c & k & Eq & _ & K).
    assert (I' : strings.Index (skipn (snd (utf8.DecodeRune s)) s) (utf8.EncodeRune r0) <> None).
    { intros N. apply I. rewrite Eq. rewrite Eq in P.
      apply strings_Index_None_cons. split; [exact P|].
      apply Index_cont_prefix; [exact K|apply utf8_EncodeRune_head_not_cont|exact N]. }
    destruct (IH I') as [H|H]; [left|right]; now right.
Qed.

(** In valid UTF-8 every rune of the range loop has its encoding in the
    string. *)
Lemma utf8_runes_Index_Valid (s : gostring) (r0 : Z) :
  utf8.Valid s = true -> In r0 (utf8.runes s) ->
  strings.Index s (utf8.EncodeRune r0) <> None.
Proof. clear looksLikeMojibake UnescapeString normString.
  induction s as [|s Hs IH] using utf8_range_ind; [intros _ []|].
  rewrite utf8_Valid_step, utf8_runes_step by exact Hs. intros V.
  apply andb_true_iff in V as [E V]. apply negb_true_iff in E.
  intros [H|H] I.
  - pose proof (utf8_EncodeRune_DecodeRune s Hs E) as F. rewrite H in F.
    destruct s as [|c s]; [congruence|].
    apply strings_Index_None_cons in I as [P _].
    assert (T : strings.HasPrefix (c :: s) (utf8.EncodeRune r0) = true).
    { apply strings_HasPrefix_app. eexists. rewrite <- F. symmetry. apply firstn_skipn. }
    congruence.
  - apply (IH V H). now apply strings_Index_None_skipn.
Qed.

(** The range loop over invalid UTF-8 yields the error rune. *)
Lemma utf8_invalid_RuneError (s : gostring) :
  utf8.Valid s = false -> In utf8.RuneError (utf8.runes s).
Proof.
  induction s as [|s Hs IH] using utf8_range_ind; [discriminate|].
  rewrite utf8_Valid_step, utf8_runes_step by exact Hs. intros V.
  apply andb_false_iff in V as [E|V].
  - left. apply negb_false_iff in E. unfold utf8.isError in E.
    apply andb_true_iff in E as [E _]. apply Z.eqb_eq in E. now rewrite E.
  - right. now apply IH.
Qed.

Lemma strings_Contains_Index (s p : gostring) :
  strings.Contains s p = true <-> strings.Index s p <> None.
Proof.
  unfold strings.Contains. destruct (strings.Index s p); split; congruence.
Qed.

(** X14.  When [HasReplacementChars] is true the range loop over the text
    yields U+FFFD; on valid UTF-8 the converse holds as well.  (On invalid
    text the loop yields U+FFFD for every bad byte, which the search for the
    bytes of U+FFFD does not see.) *)
Theorem HasReplacementChars_runes (text : gostring) :
  (HasReplacementChars text = true -> In 0xFFFD (utf8.runes text))
  /\ (utf8.Valid text = true -> In 0xFFFD (utf8.runes text) ->
      HasReplacementChars text = true).
Proof. clear looksLikeMojibake UnescapeString normString.
  unfold HasReplacementChars. split.
  - intros H. apply strings_Contains_Index in H.
    now destruct (utf8_Index_runes text 0xFFFD eq_refl H).
  - intros V H. apply strings_Contains_Index. now apply utf8_runes_Index_Valid.
Qed.

(** X15.  After [fixSurrogates], [HasReplacementChars] is true exactly when
    the range loop over the original text yields U+FFFD; so it is true for
    every text that is not valid UTF-8. *)
Theorem HasReplacementChars_fixSurrogates (text : gostring) :
  (HasReplacementChars (fixSurrogates text) = true <-> In 0xFFFD (utf8.runes text))
  /\ (utf8.Valid text = false -> HasReplacementChars (fixSurrogates text) = true).
Proof. clear looksLikeMojibake UnescapeString normString.
  assert (R : utf8.runes (fixSurrogates text) = utf8.runes text).
  { rewrite fixSurrogates_encodeAll. apply utf8_runes_encodeAll, utf8_runes_ValidRune. }
  assert (A : In 0xFFFD (utf8.runes text) -> HasReplacementChars (fixSurrogates text) = true).
  { intros H. apply strings_Contains_Index, utf8_runes_Index_Valid;
      [apply fixSurrogates_Valid|now rewrite R]. }
  split; [split; [|exact A]|].
  - intros H. apply strings_Contains_Index in H. rewrite <- R.
    now destruct (utf8_Index_runes _ 0xFFFD eq_refl H).
  - intros V. apply A. now apply utf8_invalid_RuneError.
Qed.

Lemma AnalyzeString_filter (text : gostring) :
  AnalyzeString text
  = map analyzeRune
        (filter (fun r => IsProblematic (analyzeRune r)) (utf8.runes text)).
Proof.
  unfold AnalyzeString.
  assert (G : forall rs acc,
             fold_left (fun result r =>
                          let info := analyzeRune r in
                          if IsProblematic info then result ++ [info] else result) rs acc
             = acc ++ map analyzeRune (filter (fun r => IsProblematic (analyzeRune r)) rs)).
  { induction rs as [|r rs IH]; intros acc; cbn [fold_left filter map].
    - now rewrite app_nil_r.
    - rewrite IH. cbv zeta. destruct (IsProblematic (analyzeRune r)); [|reflexivity].
      cbn [map]. now rewrite <- app_assoc. }
  apply (G _ []).
Qed.

Lemma analyzeRune_Rune (r : Z) : Rune (analyzeRune r) = r.
Proof.
  unfold analyzeRune.
  repeat match goal with |- context [if ?c then _ else _] => destruct c end; reflexivity.
Qed.

(** The categories of a rune of the range loop, case by case. *)
Lemma analyzeRune_cases (r : Z) :
  0 <= r < 0xD800 \/ 0xDFFF < r <= 0x10FFFF ->
  (stripped r = true
   /\ (Category (analyzeRune r) = go "control_C0"
       \/ Category (analyzeRune r) = go "control_C1")
   /\ IsProblematic (analyzeRune r) = true)
  \/ (stripped r = false /\ r = 0xFFFD
      /\ Category (analyzeRune r) = go "replacement_char"
      /\ IsProblematic (analyzeRune r) = true)
  \/ (stripped r = false /\ isMojibakeChar r = true
      /\ Category (analyzeRune r) = go "likely_mojibake"
      /\ IsProblematic (analyzeRune r) = true)
  \/ (stripped r = false /\ Category (analyzeRune r) = go "ok"
      /\ IsProblematic (analyzeRune r) = false).
Proof.
  intros B. unfold analyzeRune, stripped.
  replace ((0xD800 <=? r) && (r <=? 0xDFFF)) with false
    by (symmetry; apply andb_false_iff; destruct B;
        [left; apply Z.leb_gt|right; apply Z.leb_gt]; lia).
  replace (0 <=? r) with true by (symmetry; apply Z.leb_le; lia).
  cbn [andb].
  destruct (Z.eqb_spec r 9) as [->|N9]; [right; right; right; now repeat split|].
  destruct (Z.eqb_spec r 10) as [->|N10]; [right; right; right; now repeat split|].
  destruct (Z.eqb_spec r 13) as [->|N13]; [right; right; right; now repeat split|].
  cbn [negb andb orb]. rewrite !andb_true_r.
  destruct (Z.ltb_spec r 0x20) as [L|L]; cbn [orb].
  { left. repeat split; now left. }
  destruct ((0x7F <=? r) && (r <=? 0x9F)) eqn:C1.
  { left. repeat split; now right. }
  destruct (Z.eqb_spec r 0xFFFD) as [->|NF].
  { right. left. now repeat split. }
  destruct (isMojibakeChar r) eqn:M.
  { right. right. left. now repeat split. }
  right. right. right. now repeat split.
Qed.

Ltac cat_neq := let H := fresh in intros H; vm_compute in H; discriminate H.

(** X16.  Every entry of [AnalyzeString] is marked problematic, is the
    analysis of a rune of the text, and has one of the categories
    control_C0, control_C1, replacement_char and likely_mojibake: the
    category surrogate is never reported. *)
Theorem AnalyzeString_entries (text : gostring) (info : CharInfo) :
  In info (AnalyzeString text) ->
  IsProblematic info = true
  /\ In (Rune info) (utf8.runes text)
  /\ info = analyzeRune (Rune info)
  /\ (Category info = go "control_C0" \/ Category info = go "control_C1"
      \/ Category info = go "replacement_char"
      \/ Category info = go "likely_mojibake").
Proof. clear looksLikeMojibake UnescapeString normString.
  rewrite AnalyzeString_filter. intros H.
  apply in_map_iff in H as (r & <- & Hr). apply filter_In in Hr as [Hr P].
  rewrite analyzeRune_Rune. repeat split; try assumption.
  destruct (analyzeRune_cases r (utf8_runes_bounds text r Hr))
    as [(_ & [C|C] & _)|[(_ & _ & C & _)|[(_ & _ & C & _)|(_ & _ & Q)]]]; try tauto.
  congruence.
Qed.

(** X17.  For text that is not valid UTF-8, [AnalyzeString] reports a
    replacement character. *)
Theorem AnalyzeString_invalid (text : gostring) :
  utf8.Valid text = false ->
  exists info, In info (AnalyzeString text)
               /\ Rune info = 0xFFFD
               /\ Category info = go "replacement_char".
Proof.
  intros V. apply utf8_invalid_RuneError in V.
  exists (analyzeRune 0xFFFD). split; [|split; reflexivity].
  rewrite AnalyzeString_filter. apply in_map, filter_In. split; [exact V|reflexivity].
Qed.

Lemma offsets_runes (i : nat) (rws : list (Z * nat)) :
  map snd (utf8.offsets i rws) = map fst rws.
Proof.
  revert i. induction rws as [|[r w] rws IH]; intros i; [reflexivity|].
  cbn [utf8.offsets map fst snd]. now rewrite IH.
Qed.

Lemma fixes_looksLikeMojibake_rune (text : gostring) :
  fixes_go.looksLikeMojibake text = true ->
  exists r, In r (utf8.runes text) /\ (r = 0xC3 \/ r = 0xE2).
Proof.
  unfold fixes_go.looksLikeMojibake. intros H.
  apply existsb_exists in H as ([i r] & Hin & S).
  exists r. split.
  - unfold utf8.runes. rewrite <- (offsets_runes 0).
    change r with (snd (i, r)). now apply in_map.
  - unfold fixes_go.signature in S. apply orb_true_iff in S as [S|S].
    + apply andb_true_iff in S as [S _]. apply andb_true_iff in S as [S _].
      apply Z.eqb_eq in S. now left.
    + apply Z.eqb_eq in S. now right.
Qed.

Lemma encoding_looksLikeMojibake_rune (text : gostring) :
  encoding_go.looksLikeMojibake text = true ->
  exists r, In r (utf8.runes text) /\ (r = 0xC3 \/ r = 0xE2 \/ r = 0xC2).
Proof. clear looksLikeMojibake UnescapeString normString.
  unfold encoding_go.looksLikeMojibake.
  induction (utf8.runes text) as [|r rs IH]; [discriminate|].
  cbn [encoding_go.scan]. intros H.
  apply orb_true_iff in H as [H|H].
  - exists r. split; [now left|].
    apply orb_true_iff in H as [H|H]; [|apply Z.eqb_eq in H; tauto].
    apply orb_true_iff in H as [H|H]; [|apply Z.eqb_eq in H; tauto].
    apply andb_true_iff in H as [H _]. apply Z.eqb_eq in H. tauto.
  - destruct (IH H) as (x & Hx & C). exists x. split; [now right|exact C].
Qed.

(** X18.  Text that a detector flags has an entry of category
    likely_mojibake in [AnalyzeString], with the detector of [fixes.go] and
    with the detector of [encoding.go]. *)
Theorem AnalyzeString_detector (text : gostring) :
  fixes_go.looksLikeMojibake text = true
  \/ encoding_go.looksLikeMojibake text = true ->
  exists info, In info (AnalyzeString text)
               /\ Category info = go "likely_mojibake"
               /\ IsProblematic info = true.
Proof. clear looksLikeMojibake UnescapeString normString.
  intros H.
  assert (R : exists r, In r (utf8.runes text) /\ (r = 0xC3 \/ r = 0xE2 \/ r = 0xC2)).
  { destruct H as [H|H].
    - apply fixes_looksLikeMojibake_rune in H as (r & Hr & C). exists r. tauto.
    - now apply encoding_looksLikeMojibake_rune. }
  destruct R as (r & Hr & C).
  exists (analyzeRune r).
  assert (A : Category (analyzeRune r) = go "likely_mojibake"
              /\ IsProblematic (analyzeRune r) = true)
    by (destruct C as [->|[->| ->]]; split; reflexivity).
  split; [|exact A].
  rewrite AnalyzeString_filter. apply in_map, filter_In. split; [exact Hr|apply A].
Qed.

(** X19.  After [fixControlChars], [AnalyzeString] reports no control
    character. *)
Theorem AnalyzeString_fixControlChars (text : gostring) (info : CharInfo) :
  In info (AnalyzeString (fixControlChars text)) ->
  Category info <> go "control_C0" /\ Category info <> go "control_C1".
Proof.
  rewrite AnalyzeString_filter. intros H.
  apply in_map_iff in H as (r & <- & Hr). apply filter_In in Hr as [Hr _].
  pose proof (utf8_runes_bounds _ r Hr) as B.
  rewrite fixControlChars_runes in Hr. apply filter_In in Hr as [_ S].
  apply negb_true_iff in S.
  destruct (analyzeRune_cases r B)
    as [(S' & _)|[(_ & _ & C & _)|[(_ & _ & C & _)|(_ & C & _)]]];
    [congruence|rewrite C..]; split; cat_neq.
Qed.

(** ** The batch helpers *)

Lemma setAt_app (pre : list gostring) (x d : gostring) (rest : list gostring) :
  setAt (length pre) x (pre ++ d :: rest) = pre ++ x :: rest.
Proof. induction pre as [|p pre IH]; cbn [length app setAt]; [reflexivity|now rewrite IH]. Qed.

(** The loop [for i, t := range src { dst[i] = f(t) }] fills a slice of the
    length of [src] with the images of its elements. *)
Lemma rangeAssign_map (f : gostring -> gostring) (src dst : list gostring) :
  length dst = length src -> rangeAssign f src dst = map f src.
Proof.
  unfold rangeAssign.
  assert (G : forall src pre dst,
             length dst = length src ->
             fold_left (fun acc it => setAt (fst it) (f (snd it)) acc)
                       (combine (seq (length pre) (length src)) src) (pre ++ dst)
             = pre ++ map f src).
  { clear src dst. induction src as [|x src IH]; intros pre dst L.
    - destruct dst; [reflexivity|discriminate].
    - destruct dst as [|d dst]; [discriminate|]. injection L as L.
      cbn [length seq combine fold_left fst snd map]. rewrite setAt_app.
      change (pre ++ f x :: dst) with (pre ++ [f x] ++ dst). rewrite app_assoc.
      replace (S (length pre)) with (length (pre ++ [f x]))
        by (rewrite length_app; cbn [length]; lia).
      rewrite IH by exact L. now rewrite <- app_assoc. }
  intros L. apply (G src [] dst L).
Qed.

(** X20.  [FixSlice] returns a slice of the same length whose element at
    each position is [Fix] of the element of the argument at that
    position. *)
Theorem FixSlice_map (texts : list gostring) :
  FixSlice texts = map Fix texts
  /\ length (FixSlice texts) = length texts
  /\ forall i, (i < length texts)%nat ->
               nth i (FixSlice texts) [] = Fix (nth i texts []).
Proof.
  assert (E : FixSlice texts = map Fix texts).
  { unfold FixSlice. apply rangeAssign_map. apply repeat_length. }
  rewrite E. split; [reflexivity|]. split; [apply length_map|].
  intros i Hi. rewrite (nth_indep _ [] (Fix [])) by (now rewrite length_map).
  apply map_nth.
Qed.

Lemma strings_splitLoop_nonempty (fuel : nat) (s sep : gostring) :
  strings.splitLoop fuel s sep <> [].
Proof. destruct fuel; cbn [strings.splitLoop]; [discriminate|]. destruct (strings.Index s sep); discriminate. Qed.

Lemma strings_Join_cons (a : gostring) (rest : list gostring) (sep : gostring) :
  rest <> [] -> strings.Join (a :: rest) sep = a ++ sep ++ strings.Join rest sep.
Proof. destruct rest; [congruence|reflexivity]. Qed.

(** Joining the pieces of a split with the separator gives the string
    back. *)
Lemma strings_Join_splitLoop (fuel : nat) (s sep : gostring) :
  strings.Join (strings.splitLoop fuel s sep) sep = s.
Proof.
  revert s. induction fuel as [|fuel IH]; intros s; [reflexivity|].
  cbn [strings.splitLoop]. destruct (strings.Index s sep) as [m|] eqn:E; [|reflexivity].
  rewrite strings_Join_cons by apply strings_splitLoop_nonempty. rewrite IH.
  apply strings_Index_Some in E as [_ P]. apply strings_HasPrefix_skipn in P.
  rewrite Nat.add_comm, <- skipn_skipn, <- P. apply firstn_skipn.
Qed.

Lemma FixLines_lines (text : gostring) :
  FixLines text
  = strings.Join (map Fix (strings.Split text [0x0A])) [0x0A].
Proof. unfold FixLines. now rewrite rangeAssign_map. Qed.

(** X21.  [FixLines] returns the text as it is when [Fix] returns every line
    of it as it is. *)
Theorem FixLines_fixed (text : gostring) :
  (forall line, In line (strings.Split text [0x0A]) -> Fix line = line) ->
  FixLines text = text.
Proof.
  intros H. rewrite FixLines_lines.
  replace (map Fix (strings.Split text [0x0A])) with (strings.Split text [0x0A]).
  - apply strings_Join_splitLoop.
  - symmetry. rewrite <- (map_id (strings.Split text [10])) at 2.
    apply map_ext_in. exact H.
Qed.

(** *** [FixMap] *)

Lemma mapLookup_store (k k' v : gostring) (m : gomap) :
  mapLookup k (mapStore k' v m)
  = if streq k k' then Some v else mapLookup k m.
Proof.
  induction m as [|[k1 v1] m IH]; cbn [mapStore mapLookup]; [reflexivity|].
  destruct (streq k' k1) eqn:E1; cbn [mapLookup].
  - apply streq_eq in E1. subst k1. now destruct (streq k k').
  - rewrite IH. destruct (streq k k1) eqn:E2; [|reflexivity].
    apply streq_eq in E2. subst k1.
    destruct (streq k k') eqn:E3; [|reflexivity].
    apply streq_eq in E3. subst k'. rewrite streq_refl in E1. discriminate.
Qed.

Lemma mapLookup_None (k : gostring) (m : gomap) :
  ~ In k (map fst m) -> mapLookup k m = None.
Proof.
  induction m as [|[k1 v1] m IH]; [reflexivity|]. cbn [map fst In mapLookup]. intros N.
  destruct (streq k k1) eqn:E; [apply streq_eq in E; exfalso; apply N; now left|].
  apply IH. intros H. apply N. now right.
Qed.

Lemma mapLookup_In (k v : gostring) (m : gomap) :
  NoDup (map fst m) -> (mapLookup k m = Some v <-> In (k, v) m).
Proof.
  induction m as [|[k1 v1] m IH]; intros D.
  - split; [discriminate|intros []].
  - cbn [map fst] in D. inversion D as [|? ? N D']; subst.
    cbn [mapLookup In]. destruct (streq k k1) eqn:E.
    + apply streq_eq in E. subst k1. split.
      * intros [= ->]. now left.
      * intros [[= ->]|H]; [reflexivity|].
        exfalso. apply N. change k with (fst (k, v)). now apply in_map.
    + apply streq_neq in E. rewrite (IH D'). split; [now right|].
      intros [[= -> ->]|H]; [congruence|exact H].
Qed.

Lemma FixMapIn_lookup (order : gomap) (k : gostring) :
  NoDup (map fst order) ->
  mapLookup k (FixMapIn order) = option_map Fix (mapLookup k order).
Proof.
  unfold FixMapIn.
  assert (G : forall order acc,
             NoDup (map fst order) ->
             mapLookup k (fold_left (fun result kv => mapStore (fst kv) (Fix (snd kv)) result)
                                    order acc)
             = match mapLookup k order with
               | Some v => Some (Fix v)
               | None => mapLookup k acc
               end).
  { clear order. induction order as [|[k1 v1] order IH]; intros acc D; [reflexivity|].
    cbn [map fst] in D. inversion D as [|? ? N D']; subst.
    cbn [fold_left fst snd mapLookup]. rewrite IH by exact D'.
    rewrite mapLookup_store. destruct (streq k k1) eqn:E; [|reflexivity].
    apply streq_eq in E. subst k1. now rewrite mapLookup_None. }
  intros D. rewrite G by exact D. now destruct (mapLookup k order).
Qed.

(** X22.  Whatever the order of the map range, the map [FixMap] returns has
    at each key of the argument [Fix] of the value at that key, and has no
    other key. *)
Theorem FixMap_lookup (m result : gomap) (k : gostring) :
  NoDup (map fst m) -> FixMap m result ->
  mapLookup k result = option_map Fix (mapLookup k m).
Proof.
  intros D (order & P & ->).
  assert (D' : NoDup (map fst order)).
  { apply (Permutation_NoDup (l := map fst m)); [|exact D].
    apply Permutation_map. now apply Permutation_sym. }
  rewrite FixMapIn_lookup by exact D'. f_equal.
  destruct (mapLookup k order) as [v|] eqn:E.
  - symmetry. apply (mapLookup_In k v m D).
    apply (Permutation_in _ P). now apply (mapLookup_In k v order D').
  - destruct (mapLookup k m) as [v|] eqn:E'; [|reflexivity].
    apply (mapLookup_In k v m D) in E'.
    apply (Permutation_in _ (Permutation_sym P)) in E'.
    apply (mapLookup_In k v order D') in E'. congruence.
Qed.

(** ** [Explain] *)





Ltac msg_neq := let H := fresh in intros H; vm_compute in H; discriminate H.

(** X23.  [Explain] answers "No changes needed." exactly when the two
    strings are equal. *)
Theorem Explain_no_changes_iff (original fixed : gostring) :
  Explain original fixed = go "No changes needed." <-> original = fixed.
Proof.
  unfold Explain. split.
  - destruct (streq original fixed) eqn:E; [intros _; now apply streq_eq|].
    destruct (replay original) as [text notes].
    destruct notes as [|n notes]; [msg_neq|].
    destruct (negb (streq text fixed)); intros H; cbn in H; discriminate H.
  - intros ->. now rewrite streq_refl.
Qed.



(** ** [QuickFix] on text it cannot or need not repair *)

Lemma strings_Index_None_byte (s old : gostring) (b : Z) :
  In b old -> ~ In b s -> strings.Index s old = None.
Proof.
  intros Ho.
  assert (P : forall s, ~ In b s -> strings.HasPrefix s old = false).
  { intros s0 N. destruct (strings.HasPrefix s0 old) eqn:E; [|reflexivity].
    apply strings_HasPrefix_app in E as (x & ->). exfalso. apply N, in_or_app. now left. }
  induction s as [|c s IH]; intros N.
  - cbn [strings.Index]. now rewrite P.
  - apply strings_Index_None_cons. split; [now apply P|].
    apply IH. intros H. apply N. now right.
Qed.







(** ** The two stages that are off by default *)

Lemma ansiEscape_None (c : Z) (s : gostring) :
  c <> 0x1B -> ansiEscape (c :: s) = None.
Proof.
  intros N. unfold ansiEscape. destruct s as [|d s]; [reflexivity|].
  now rewrite (proj2 (Z.eqb_neq c 0x1B) N).
Qed.

Lemma removeLoop_no_escape (fuel : nat) (s : gostring) :
  ~ In 0x1B s -> removeLoop fuel s = s.
Proof.
  revert s. induction fuel as [|fuel IH]; intros s N; [reflexivity|].
  destruct s as [|c s]; [reflexivity|].
  cbn [removeLoop]. rewrite ansiEscape_None by (intros ->; apply N; now left).
  f_equal. apply IH. intros H. apply N. now right.
Qed.

Lemma skipParams_length (s : gostring) : (length (skipParams s) <= length s)%nat.
Proof.
  induction s as [|c s IH]; [reflexivity|]. cbn [skipParams].
  destruct (((0x30 <=? c) && (c <=? 0x39)) || (c =? 0x3B)); cbn [length]; lia.
Qed.

(** A match of [ansiEscape] is at least one byte long. *)
Lemma ansiEscape_pos (s : gostring) (n : nat) :
  ansiEscape s = Some n -> (1 <= n)%nat.
Proof.
  unfold ansiEscape. destruct s as [|e [|c rest]]; try discriminate.
  destruct (negb (e =? 0x1B)); [discriminate|].
  destruct (c =? 0x5B).
  - pose proof (skipParams_length rest) as L.
    destruct (skipParams rest) as [|l after]; [discriminate|].
    destruct (isLetter l); [|discriminate].
    intros [= <-]. cbn [length] in L.
    destruct (length after) as [|[|k]]; lia.
  - destruct (c =? 0x5C); [discriminate|]. intros [= <-]. lia.
Qed.

Lemma removeLoop_fuel (f1 f2 : nat) (s : gostring) :
  (length s <= f1)%nat -> (length s <= f2)%nat ->
  removeLoop f1 s = removeLoop f2 s.
Proof.
  revert f2 s. induction f1 as [|f1 IH]; intros f2 s H1 H2.
  - destruct s; [|cbn [length] in H1; lia]. now destruct f2.
  - destruct f2 as [|f2]; [destruct s; [reflexivity|cbn [length] in H2; lia]|].
    destruct s as [|c s]; [reflexivity|].
    cbn [removeLoop]. destruct (ansiEscape (c :: s)) as [n|] eqn:E.
    + apply ansiEscape_pos in E.
      apply IH; rewrite length_skipn; cbn [length] in *; lia.
    + f_equal. apply IH; cbn [length] in *; lia.
Qed.

Lemma removeLoop_S (f : nat) (c : Z) (s : gostring) :
  removeLoop (S f) (c :: s)
  = match ansiEscape (c :: s) with
    | Some n => removeLoop f (skipn n (c :: s))
    | None => c :: removeLoop f s
    end.
Proof. reflexivity. Qed.

Lemma skipParams_app (params : gostring) (l : Z) (rest : gostring) :
  (forall c, In c params -> 0x30 <= c <= 0x39 \/ c = 0x3B) ->
  isLetter l = true ->
  skipParams (params ++ l :: rest) = l :: rest.
Proof.
  intros P L. induction params as [|c params IH]; cbn [app skipParams].
  - assert (D : ((0x30 <=? l) && (l <=? 0x39)) || (l =? 0x3B) = false).
    { unfold isLetter in L. apply orb_true_iff in L.
      destruct L as [L|L]; apply andb_true_iff in L as [L1 L2];
        apply Z.leb_le in L1, L2; cmp_lia; reflexivity. }
    now rewrite D.
  - assert (D : ((0x30 <=? c) && (c <=? 0x39)) || (c =? 0x3B) = true).
    { destruct (P c (or_introl eq_refl)) as [H| ->]; [cmp_lia|]; reflexivity. }
    rewrite D. apply IH. intros x Hx. apply P. now right.
Qed.

(** X28.  [removeTerminalEscapes] returns a text without escape byte as it
    is, and removes a sequence ESC, bracket, digits and semicolons, letter
    from the head of a text. *)
Theorem removeTerminalEscapes_spec (text : gostring) :
  (~ In 0x1B text -> removeTerminalEscapes text = text)
  /\ (forall params l,
         (forall c, In c params -> 0x30 <= c <= 0x39 \/ c = 0x3B) ->
         isLetter l = true ->
         removeTerminalEscapes ([0x1B; 0x5B] ++ params ++ l :: text)
         = removeTerminalEscapes text).
Proof.
  split; [apply removeLoop_no_escape|].
  intros params l P L. unfold removeTerminalEscapes.
  change ([0x1B; 0x5B] ++ params ++ l :: text) with (0x1B :: 0x5B :: params ++ l :: text).
  change (length (0x1B :: 0x5B :: params ++ l :: text))
    with (S (length (0x5B :: params ++ l :: text))) at 1.
  rewrite removeLoop_S.
  assert (A : ansiEscape (0x1B :: 0x5B :: params ++ l :: text)
              = Some (Nat.sub (length (0x1B :: 0x5B :: params ++ l :: text)) (length text))).
  { unfold ansiEscape. cbn [Z.eqb negb]. change (27 =? 27) with true.
    change (91 =? 91) with true. cbn [negb].
    now rewrite skipParams_app, L by assumption. }
  rewrite A.
  assert (S : skipn (Nat.sub (length (0x1B :: 0x5B :: params ++ l :: text)) (length text))
                    (0x1B :: 0x5B :: params ++ l :: text) = text).
  { replace (0x1B :: 0x5B :: params ++ l :: text)
      with ((0x1B :: 0x5B :: params ++ [l]) ++ text)
      by (cbn [app]; now rewrite <- app_assoc).
    rewrite length_app, Nat.add_sub, skipn_app, skipn_all, Nat.sub_diag. reflexivity. }
  rewrite S. apply removeLoop_fuel; cbn [length]; rewrite ?length_app; cbn [length]; lia.
Qed.

Lemma firstMatch_None (pairs : list (gostring * gostring)) (c : Z) (s : gostring) :
  (forall p, In p pairs -> match fst p with [] => False | o :: _ => o <> c end) ->
  strings.firstMatch pairs (c :: s) = None.
Proof.
  induction pairs as [|[old new] pairs IH]; intros K; [reflexivity|].
  cbn [strings.firstMatch].
  pose proof (K _ (or_introl eq_refl)) as H. cbn [fst] in H.
  destruct old as [|o old]; [destruct H|]. cbn [strings.HasPrefix].
  rewrite (proj2 (Z.eqb_neq c o)) by congruence. cbn [andb].
  apply IH. intros p Hp. apply K. now right.
Qed.

(** X29.  [fixCurlyQuotes] returns a text without the bytes 0xC2 and 0xE2
    as it is: every quotation mark it straightens is written with one of
    them, so ASCII text in particular is never changed. *)
Theorem fixCurlyQuotes_unchanged (text : gostring) :
  ~ In 0xC2 text -> ~ In 0xE2 text -> fixCurlyQuotes text = text.
Proof.
  unfold fixCurlyQuotes, strings.Replace.
  generalize (length text) as fuel. intros fuel. revert text.
  induction fuel as [|fuel IH]; intros text N1 N2; [reflexivity|].
  destruct text as [|c text]; [reflexivity|].
  cbn [strings.replacerLoop]. rewrite firstMatch_None.
  - f_equal. apply IH; intros H; [apply N1|apply N2]; now right.
  - intros p Hp.
    assert (C : c <> 0xC2 /\ c <> 0xE2)
      by (split; intros ->; [apply N1|apply N2]; now left).
    vm_compute in Hp.
    repeat (destruct Hp as [<-|Hp]; [cbn; lia|]). destruct Hp.
Qed.

(** ** [FixLines] and carriage returns *)

Lemma strings_HasPrefix_nil (s : gostring) : strings.HasPrefix s [] = true.
Proof. now destruct s. Qed.

Lemma strings_HasPrefix_head (c o : Z) (s old : gostring) :
  c <> o -> strings.HasPrefix (c :: s) (o :: old) = false.
Proof. intros N. cbn [strings.HasPrefix]. now rewrite (proj2 (Z.eqb_neq c o) N). Qed.

(** Bytes that differ from the first byte of [old] are copied. *)
Lemma strings_ReplaceAll_app_skip (a X : gostring) (o : Z) (old new : gostring) :
  o :: old <> new -> (forall c, In c a -> c <> o) ->
  strings.ReplaceAll (a ++ X) (o :: old) new
  = a ++ strings.ReplaceAll X (o :: old) new.
Proof.
  intros D N. rewrite !strings_ReplaceAll_loop by (discriminate || assumption).
  induction a as [|c a IH]; [reflexivity|].
  cbn [app]. rewrite strings_replace_skip.
  - f_equal. apply IH. intros x Hx. apply N. now right.
  - discriminate.
  - apply strings_HasPrefix_head, N. now left.
Qed.

Lemma strings_Index_app_skip (a X : gostring) (o : Z) :
  (forall c, In c a -> c <> o) ->
  strings.Index (a ++ X) [o] = option_map (Nat.add (length a)) (strings.Index X [o]).
Proof.
  intros N. induction a as [|c a IH]; cbn [app length].
  - now destruct (strings.Index X [o]).
  - rewrite strings_Index_cons, strings_HasPrefix_head by (apply N; now left).
    rewrite IH by (intros x Hx; apply N; now right).
    now destruct (strings.Index X [o]).
Qed.

(** ASCII text without ampersand passes the first three stages and the
    last one as it is; what [Fix] returns is decided by the line-break stage
    when that stage leaves nothing for the control-character stage. *)
Lemma Fix_ascii_via (text text' : gostring) :
  NFC_keeps_latin normString ->
  (forall b, In b text -> 0 <= b < 0x80 /\ b <> 0x26) ->
  fixLineBreaks text = text' ->
  (forall b, In b text' -> 0x20 <= b < 0x7F \/ b = 0x09 \/ b = 0x0A) ->
  Fix text = text'.
Proof.
  intros L A E A'.
  assert (Asc : forall b, In b text -> 0 <= b < 0x80) by (intros b Hb; apply A in Hb; lia).
  assert (Asc' : forall b, In b text' -> 0 <= b < 0x80) by (intros b Hb; apply A' in Hb; lia).
  pose proof (utf8_Valid_ascii text Asc) as V.
  pose proof (utf8_runes_ascii text Asc) as Rn.
  pose proof (utf8_Valid_ascii text' Asc') as V'.
  pose proof (utf8_runes_ascii text' Asc') as Rn'.
  rewrite Fix_eq, fixSurrogates_fixed by exact V.
  rewrite fixEncoding_of_decodeMojibake_fixed.
  2:{ apply decodeMojibake_fixed. rewrite Rn. intros r Hr. apply Asc in Hr. lia. }
  unfold fixHTMLEntities. change (go "&") with [0x26].
  rewrite strings_Contains_byte by (intros H; now apply A in H). cbn [negb].
  rewrite E, fixControlChars_fixed; [|exact V'|].
  2:{ rewrite Rn'. intros r Hr. apply A' in Hr. unfold stripped.
      destruct Hr as [H|[->| ->]]; [cmp_lia|..]; reflexivity. }
  apply L; [exact V'|]. rewrite Rn'. intros r Hr. apply Asc' in Hr. lia.
Qed.

Lemma strings_ReplaceAll_separators (s : gostring) :
  ~ In 0xE2 s ->
  strings.ReplaceAll (strings.ReplaceAll s (utf8.EncodeRune 0x2028) [0x0A])
                     (utf8.EncodeRune 0x2029) [0x0A] = s.
Proof.
  intros N.
  rewrite (strings_ReplaceAll_none s (utf8.EncodeRune 0x2028))
    by (apply (strings_Index_None_byte _ _ 0xE2); [now left|exact N]).
  apply strings_ReplaceAll_none.
  apply (strings_Index_None_byte _ _ 0xE2); [now left|exact N].
Qed.

Lemma fixLineBreaks_CR_end (l : gostring) :
  (forall b, In b l -> 0x20 <= b < 0x7F \/ b = 0x09) ->
  fixLineBreaks (l ++ [0x0D]) = l ++ [0x0A].
Proof.
  intros C. unfold fixLineBreaks.
  rewrite (strings_ReplaceAll_app_skip l [0x0D] 0x0D [0x0A] [0x0A])
    by (discriminate || (intros c Hc; apply C in Hc; lia)).
  change (strings.ReplaceAll [0x0D] [0x0D; 0x0A] [0x0A]) with [0x0D].
  rewrite (strings_ReplaceAll_app_skip l [0x0D] 0x0D [] [0x0A])
    by (discriminate || (intros c Hc; apply C in Hc; lia)).
  change (strings.ReplaceAll [0x0D] [0x0D] [0x0A]) with [0x0A].
  apply strings_ReplaceAll_separators.
  intros H; apply in_app_or in H as [H|[H|[]]]; [apply C in H; lia|discriminate].
Qed.

Lemma fixLineBreaks_CRLF (l1 l2 : gostring) :
  (forall b, In b l1 -> 0x20 <= b < 0x7F \/ b = 0x09) ->
  (forall b, In b l2 -> 0x20 <= b < 0x7F \/ b = 0x09) ->
  fixLineBreaks (l1 ++ [0x0D; 0x0A] ++ l2) = l1 ++ [0x0A] ++ l2.
Proof.
  intros C1 C2. unfold fixLineBreaks.
  rewrite (strings_ReplaceAll_app_skip l1 _ 0x0D [0x0A] [0x0A])
    by (discriminate || (intros c Hc; apply C1 in Hc; lia)).
  assert (M : strings.ReplaceAll ([0x0D; 0x0A] ++ l2) [0x0D; 0x0A] [0x0A] = [0x0A] ++ l2).
  { rewrite strings_ReplaceAll_loop by discriminate.
    cbn [app]. rewrite strings_replace_match by (discriminate || (cbn; now destruct l2)).
    cbn [length skipn app]. f_equal. apply strings_replace_none.
    apply (strings_Index_None_byte _ _ 0x0D); [now left|].
    intros H. apply C2 in H. lia. }
  rewrite M.
  rewrite (strings_ReplaceAll_none (l1 ++ [0x0A] ++ l2) [0x0D]).
  - apply strings_ReplaceAll_separators.
    intros H. apply in_app_or in H as [H|H]; [apply C1 in H; lia|].
    destruct H as [H|H]; [discriminate|apply C2 in H; lia].
  - apply (strings_Index_None_byte _ _ 0x0D); [now left|].
    intros H. apply in_app_or in H as [H|H]; [apply C1 in H; lia|].
    destruct H as [H|H]; [discriminate|apply C2 in H; lia].
Qed.

Lemma strings_splitLoop_S (f : nat) (s sep : gostring) :
  strings.splitLoop (S f) s sep
  = match strings.Index s sep with
    | None => [s]
    | Some m => firstn m s :: strings.splitLoop f (skipn (m + length sep) s) sep
    end.
Proof. reflexivity. Qed.

Lemma strings_splitLoop_none (f : nat) (s sep : gostring) :
  strings.Index s sep = None -> strings.splitLoop f s sep = [s].
Proof. intros H. destruct f; [reflexivity|]. now rewrite strings_splitLoop_S, H. Qed.

Lemma Split_CRLF (l1 l2 : gostring) :
  (forall b, In b l1 -> 0x20 <= b < 0x7F \/ b = 0x09) ->
  (forall b, In b l2 -> 0x20 <= b < 0x7F \/ b = 0x09) ->
  strings.Split (l1 ++ [0x0D; 0x0A] ++ l2) [0x0A] = [l1 ++ [0x0D]; l2].
Proof.
  intros C1 C2. unfold strings.Split.
  assert (I2 : strings.Index l2 [0x0A] = None).
  { apply strings_Index_byte_None. intros H. apply C2 in H. lia. }
  replace (l1 ++ [0x0D; 0x0A] ++ l2) with ((l1 ++ [0x0D]) ++ 0x0A :: l2)
    by (now rewrite <- app_assoc).
  assert (Na : forall c, In c (l1 ++ [0x0D]) -> c <> 0x0A).
  { intros c Hc. apply in_app_or in Hc as [Hc|[<-|[]]]; [apply C1 in Hc|]; lia. }
  generalize dependent (l1 ++ [0x0D]). intros a Na.
  assert (I : strings.Index (a ++ 0x0A :: l2) [0x0A] = Some (length a + 0)%nat).
  { rewrite strings_Index_app_skip by exact Na.
    rewrite strings_Index_cons. cbn [strings.HasPrefix].
    now rewrite strings_HasPrefix_nil, Z.eqb_refl. }
  rewrite Nat.add_0_r in I.
  rewrite length_app. cbn [length]. rewrite Nat.add_succ_r.
  rewrite strings_splitLoop_S, I.
  rewrite firstn_app, firstn_all, Nat.sub_diag. cbn [firstn]. rewrite app_nil_r.
  f_equal. cbn [length].
  rewrite skipn_app, skipn_all2 by lia.
  replace (length a + 1 - length a)%nat with 1%nat by lia.
  cbn [skipn app]. now apply strings_splitLoop_none.
Qed.

(** X30.  [FixLines] turns a carriage return and line feed between two
    lines of plain ASCII into two newlines, where [Fix] on the whole text
    gives one: the split at the line feed leaves the carriage return at the
    end of the first line, and [Fix] of that line rewrites it. *)
Theorem FixLines_CRLF (l1 l2 : gostring) :
  NFC_keeps_latin normString ->
  (forall b, In b l1 -> (0x20 <= b < 0x7F \/ b = 0x09) /\ b <> 0x26) ->
  (forall b, In b l2 -> (0x20 <= b < 0x7F \/ b = 0x09) /\ b <> 0x26) ->
  FixLines (l1 ++ [0x0D; 0x0A] ++ l2) = l1 ++ [0x0A; 0x0A] ++ l2
  /\ Fix (l1 ++ [0x0D; 0x0A] ++ l2) = l1 ++ [0x0A] ++ l2.
Proof.
  intros L C1 C2.
  assert (P1 : forall b, In b l1 -> 0x20 <= b < 0x7F \/ b = 0x09) by (intros b Hb; now apply C1).
  assert (P2 : forall b, In b l2 -> 0x20 <= b < 0x7F \/ b = 0x09) by (intros b Hb; now apply C2).
  split.
  - rewrite FixLines_lines, Split_CRLF by assumption. cbn [map strings.Join].
    rewrite (Fix_ascii_via (l1 ++ [0x0D]) (l1 ++ [0x0A]) L).
    + rewrite (Fix_ascii_via l2 l2 L).
      * now rewrite <- app_assoc.
      * intros b Hb. apply C2 in Hb. lia.
      * apply fixLineBreaks_of_Index;
          [apply strings_Index_byte_None; intros H; apply P2 in H; lia|..];
          (apply (strings_Index_None_byte _ _ 0xE2); [now left|]; intros H; apply P2 in H; lia).
      * intros b Hb. apply P2 in Hb. lia.
    + intros b Hb. apply in_app_or in Hb as [Hb|[<-|[]]]; [apply C1 in Hb|]; lia.
    + now apply fixLineBreaks_CR_end.
    + intros b Hb. apply in_app_or in Hb as [Hb|[<-|[]]]; [apply P1 in Hb|]; lia.
  - apply (Fix_ascii_via _ _ L).
    + intros b Hb. apply in_app_or in Hb as [Hb|Hb]; [apply C1 in Hb; lia|].
      destruct Hb as [<-|[<-|Hb]]; [lia|lia|apply C2 in Hb; lia].
    + now apply fixLineBreaks_CRLF.
    + intros b Hb. apply in_app_or in Hb as [Hb|Hb]; [apply P1 in Hb; lia|].
      destruct Hb as [<-|Hb]; [lia|apply P2 in Hb; lia].
Qed.
End Pipeline.

(* ================================================================== *)
(** * The two drafts on concrete text *)

Section Corpus.

Variable UnescapeString : gostring -> gostring.
Variable normString : Form -> gostring -> gostring.
Hypothesis NFC_latin : NFC_keeps_latin normString.

Ltac run_Fix :=
  rewrite Fix_eq;
  match goal with
  | |- normString NFC ?x = _ =>
    let y := eval vm_compute in x in
    replace x with y by (vm_compute; reflexivity)
  end;
  apply NFC_keeps_latin_b; [exact NFC_latin|reflexivity|reflexivity].

(** C1.  The known mojibake corpus is repaired end to end by the default
    pipeline, with the detector of [fixes.go] and with the detector of
    [encoding.go]. *)
Theorem Fix_known_mojibake :
  (Fix fixes_go.looksLikeMojibake UnescapeString normString (go "SÃ£o Paulo")
   = go "São Paulo"
   /\ Fix fixes_go.looksLikeMojibake UnescapeString normString (go "cafÃ©")
      = go "café"
   /\ Fix fixes_go.looksLikeMojibake UnescapeString normString (go "naÃ¯ve")
      = go "naïve")
  /\ (Fix encoding_go.looksLikeMojibake UnescapeString normString (go "SÃ£o Paulo")
      = go "São Paulo"
      /\ Fix encoding_go.looksLikeMojibake UnescapeString normString (go "cafÃ©")
         = go "café"
      /\ Fix encoding_go.looksLikeMojibake UnescapeString normString (go "naÃ¯ve")
         = go "naïve").
Proof. repeat split; run_Fix. Qed.

(** Text corrupted twice is repaired one generation per call, whatever the
    library functions do elsewhere. *)
Lemma Fix_double_mojibake (looksLikeMojibake : gostring -> bool) :
  looksLikeMojibake = fixes_go.looksLikeMojibake
  \/ looksLikeMojibake = encoding_go.looksLikeMojibake ->
  Fix looksLikeMojibake UnescapeString normString doubleMojibake = go "Ã©"
  /\ Fix looksLikeMojibake UnescapeString normString (go "Ã©") = go "é".
Proof. intros [-> | ->]; split; run_Fix. Qed.

(** A carriage return in ASCII text is rewritten. *)
Lemma Fix_carriage_return (looksLikeMojibake : gostring -> bool) :
  Fix looksLikeMojibake UnescapeString normString [0x61; 0x0D; 0x62]
  = [0x61; 0x0A; 0x62].
Proof.
  rewrite Fix_eq.
  replace (fixSurrogates [0x61; 0x0D; 0x62]) with [0x61; 0x0D; 0x62]
    by (vm_compute; reflexivity).
  rewrite fixEncoding_of_decodeMojibake_fixed by (vm_compute; reflexivity).
  replace (fixControlChars (fixLineBreaks (fixHTMLEntities UnescapeString [0x61; 0x0D; 0x62])))
    with [0x61; 0x0A; 0x62] by (vm_compute; reflexivity).
  apply NFC_keeps_latin_b; [exact NFC_latin|reflexivity|reflexivity].
Qed.

End Corpus.

Lemma normStable_keeps_latin : NFC_keeps_latin normStable.
Proof. intros s _ _. reflexivity. Qed.

Lemma normStable_keeps_Valid : norm_keeps_Valid normStable.
Proof. intros f s V. exact V. Qed.

Lemma normStable_idempotent : NFC_idempotent normStable.
Proof. intros s _. reflexivity. Qed.

Lemma normStable_inert : NFC_inert normStable.
Proof. intros s r _ H _. exact H. Qed.

Lemma unescapeNone_keeps_Valid : Unescape_keeps_Valid unescapeNone.
Proof. intros s V. exact V. Qed.

(** ** [QuickFix] *)

(** C9.  [QuickFix] of [fixes.go] ranges over a map, and its result depends
    on the order of the range: on the text [â€™] the order of the table
    gives U+2019, an order that takes the key [â€] first gives U+201D
    followed by the trade mark sign. *)
Theorem QuickFix_order_dependent :
  exists out1 out2,
    fixes_go.QuickFix (go "â€™") out1
    /\ fixes_go.QuickFix (go "â€™") out2
    /\ out1 <> out2.
Proof.
  exists (fixes_go.QuickFixIn fixes_go.CommonMojibakePatterns (go "â€™")).
  exists (fixes_go.QuickFixIn
            ((go "â€", utf8.EncodeRune 0x201D)
               :: firstn 7 fixes_go.CommonMojibakePatterns
               ++ skipn 8 fixes_go.CommonMojibakePatterns)
            (go "â€™")).
  split; [|split].
  - exists fixes_go.CommonMojibakePatterns. split; [apply Permutation_refl|reflexivity].
  - eexists. split; [|reflexivity].
    rewrite <- (firstn_skipn 7 fixes_go.CommonMojibakePatterns) at 3.
    apply Permutation_middle.
  - vm_compute. discriminate.
Qed.

(** The two results of the text [â€™]. *)
Lemma QuickFix_two_results :
  fixes_go.QuickFixIn fixes_go.CommonMojibakePatterns (go "â€™")
  = utf8.EncodeRune 0x2019
  /\ fixes_go.QuickFixIn
       ((go "â€", utf8.EncodeRune 0x201D)
          :: firstn 7 fixes_go.CommonMojibakePatterns
          ++ skipn 8 fixes_go.CommonMojibakePatterns)
       (go "â€™")
     = utf8.EncodeRune 0x201D ++ go "™".
Proof. split; vm_compute; reflexivity. Qed.

(** [QuickFix] of [encoding.go] ranges over the ordered slice and returns
    U+2019 on that text. *)
Lemma QuickFix_ordered :
  encoding_go.QuickFix (go "â€™") = utf8.EncodeRune 0x2019.
Proof. vm_compute. reflexivity. Qed.

(* ================================================================== *)
(** * Instances and counterexamples *)

(** The corpus, with library functions that return their argument. *)
Lemma Fix_known_mojibake_witness :
  Fix fixes_go.looksLikeMojibake unescapeNone normStable (go "cafÃ©") = go "café".
Proof.
  exact (proj1 (proj2 (proj1 (Fix_known_mojibake unescapeNone normStable
                                                 normStable_keeps_latin)))).
Defined.

(** Double mojibake: the second call of the pipeline repairs what the first
    left, so the first output is not a fixed point (C2 as stated). *)
Lemma Fix_not_idempotent :
  Fix fixes_go.looksLikeMojibake unescapeNone normStable
      (Fix fixes_go.looksLikeMojibake unescapeNone normStable doubleMojibake)
  <> Fix fixes_go.looksLikeMojibake unescapeNone normStable doubleMojibake.
Proof. vm_compute. discriminate. Qed.

Lemma Fix_idempotent_when_witness :
  Fix fixes_go.looksLikeMojibake unescapeNone normStable
      (Fix fixes_go.looksLikeMojibake unescapeNone normStable (go "cafÃ©"))
  = Fix fixes_go.looksLikeMojibake unescapeNone normStable (go "cafÃ©").
Proof.
  apply (Fix_idempotent_when fixes_go.looksLikeMojibake unescapeNone normStable
           (go "cafÃ©") normStable_keeps_Valid normStable_idempotent normStable_inert).
  - vm_compute. reflexivity.
  - vm_compute. reflexivity.
Defined.

(** Valid text that neither detector flags and the reverser would repair:
    the encoding stage returns it as it is (C3 as stated). *)
Lemma fixEncoding_detector_blocks :
  utf8.Valid (go "Å¡") = true
  /\ fixes_go.looksLikeMojibake (go "Å¡") = false
  /\ encoding_go.looksLikeMojibake (go "Å¡") = false
  /\ decodeMojibake (go "Å¡") = go "š"
  /\ fixEncoding fixes_go.looksLikeMojibake (go "Å¡") <> decodeMojibake (go "Å¡")
  /\ fixEncoding encoding_go.looksLikeMojibake (go "Å¡") <> decodeMojibake (go "Å¡").
Proof. repeat split; vm_compute; (reflexivity || discriminate). Qed.

Lemma decodeMojibake_acceptance_witness :
  decodeMojibake (go "cafÃ©") = reconstruction (go "cafÃ©").
Proof.
  apply (proj1 (proj2 (decodeMojibake_acceptance (go "cafÃ©")))).
  split; [vm_compute; reflexivity|vm_compute; reflexivity].
Defined.

(** ASCII text with a carriage return is changed (C5 as stated). *)
Lemma Fix_ascii_changed :
  (forall b, In b [0x61; 0x0D; 0x62] -> 0 <= b <= 0x7F)
  /\ Fix fixes_go.looksLikeMojibake unescapeNone normStable [0x61; 0x0D; 0x62]
     <> [0x61; 0x0D; 0x62].
Proof.
  split.
  - intros b [<-|[<-|[<-|[]]]]; lia.
  - vm_compute. discriminate.
Qed.

Lemma Fix_ascii_clean_witness :
  Fix fixes_go.looksLikeMojibake unescapeNone normStable (go "Hello, world!")
  = go "Hello, world!".
Proof.
  apply (Fix_ascii_clean fixes_go.looksLikeMojibake unescapeNone normStable
           (go "Hello, world!") normStable_keeps_latin).
  intros b Hb. vm_compute in Hb.
  repeat (destruct Hb as [<-|Hb]; [lia|]). destruct Hb.
Defined.

Lemma Fix_Valid_witness :
  utf8.Valid (Fix fixes_go.looksLikeMojibake unescapeNone normStable
                  [0xFF; 0xED; 0xA0; 0x80]) = true.
Proof.
  pose proof (Fix_Valid fixes_go.looksLikeMojibake unescapeNone normStable
                [0xFF; 0xED; 0xA0; 0x80]
                unescapeNone_keeps_Valid normStable_keeps_Valid) as H.
  cbv zeta in H. exact (proj1 (proj2 (proj2 (proj2 (proj2 (proj2 H)))))).
Defined.

(** The output of the encoding stage on double mojibake is repaired again by
    the stage (C7 as stated), with either detector. *)
Lemma fixEncoding_not_idempotent :
  fixEncoding fixes_go.looksLikeMojibake
              (fixEncoding fixes_go.looksLikeMojibake doubleMojibake)
  <> fixEncoding fixes_go.looksLikeMojibake doubleMojibake
  /\ fixEncoding encoding_go.looksLikeMojibake
                 (fixEncoding encoding_go.looksLikeMojibake doubleMojibake)
     <> fixEncoding encoding_go.looksLikeMojibake doubleMojibake.
Proof. split; vm_compute; discriminate. Qed.

Lemma fixEncoding_fixed_point_witness :
  fixEncoding fixes_go.looksLikeMojibake
              (fixEncoding fixes_go.looksLikeMojibake (go "cafÃ©"))
  = fixEncoding fixes_go.looksLikeMojibake (go "cafÃ©").
Proof.
  apply (fixEncoding_fixed_point fixes_go.looksLikeMojibake (go "cafÃ©")).
  intros r Hr. vm_compute in Hr.
  repeat (destruct Hr as [<-|Hr]; [lia|]). destruct Hr.
Defined.


Lemma CountProblems_zero_not_IsValid_witness :
  exists text,
    Fix fixes_go.looksLikeMojibake unescapeNone normStable text <> text
    /\ IsValid fixes_go.looksLikeMojibake unescapeNone normStable text = false
    /\ CountProblems fixes_go.looksLikeMojibake unescapeNone normStable text = 0.
Proof.
  apply (CountProblems_zero_not_IsValid fixes_go.looksLikeMojibake unescapeNone
           normStable normStable_keeps_latin).
Defined.

Lemma fixEncoding_gate_witness :
  fixEncoding fixes_go.looksLikeMojibake (go "Å¡") = go "Å¡"
  /\ fixEncoding fixes_go.looksLikeMojibake (go "cafÃ©") = decodeMojibake (go "cafÃ©").
Proof.
  split.
  - apply (proj1 (fixEncoding_gate fixes_go.looksLikeMojibake (go "Å¡")));
      vm_compute; reflexivity.
  - apply (proj2 (fixEncoding_gate fixes_go.looksLikeMojibake (go "cafÃ©"))).
    right. vm_compute. reflexivity.
Defined.

(* ================================================================== *)
(** * Instances of the stage, analysis and batch properties *)

Lemma fixLineBreaks_fixed_iff_witness :
  utf8.Valid (fixLineBreaks (go "café")) = true
  /\ fixLineBreaks (go "café") = go "café".
Proof.
  assert (V : utf8.Valid (go "café") = true) by (vm_compute; reflexivity).
  pose proof (fixLineBreaks_fixed_iff (go "café") V) as [H1 H2].
  split; [exact H1|]. apply (proj2 H2).
  intros r Hr. vm_compute in Hr.
  repeat (destruct Hr as [<-|Hr]; [lia|]). destruct Hr.
Defined.

Lemma fixEncoding_reduces_witness :
  countNonASCII (fixEncoding fixes_go.looksLikeMojibake (go "cafÃ©"))
  < countNonASCII (go "cafÃ©").
Proof.
  assert (H : fixEncoding fixes_go.looksLikeMojibake (go "cafÃ©") <> go "cafÃ©")
    by (vm_compute; discriminate).
  exact (proj2 (proj2 (fixEncoding_reduces fixes_go.looksLikeMojibake (go "cafÃ©") H))).
Defined.

(** Double mojibake has four runes outside ASCII: four runs of the stage
    are enough. *)
Lemma fixEncoding_iter_fixed_witness :
  fixEncoding fixes_go.looksLikeMojibake
              (Nat.iter 4 (fixEncoding fixes_go.looksLikeMojibake) doubleMojibake)
  = Nat.iter 4 (fixEncoding fixes_go.looksLikeMojibake) doubleMojibake.
Proof.
  apply (fixEncoding_iter_fixed fixes_go.looksLikeMojibake 4 doubleMojibake).
  vm_compute. discriminate.
Defined.

(** One correct [é] before a space keeps the garbled [Ã©] after it as it
    is. *)
Lemma fixEncoding_blocked_witness :
  fixEncoding fixes_go.looksLikeMojibake (go "é Ã©") = go "é Ã©".
Proof.
  assert (R : utf8.runes (go "é Ã©") = [] ++ 0xE9 :: [0x20; 0xC3; 0xA9])
    by (vm_compute; reflexivity).
  assert (B : 0xC0 <= 0xE9 <= 0xFF) by lia.
  assert (N : ~ 0x80 <= 0x20 <= 0xBF) by lia.
  exact (proj2 (proj2 (fixEncoding_blocked fixes_go.looksLikeMojibake (go "é Ã©")
                         [] 0xE9 [0x20; 0xC3; 0xA9] R B N))).
Defined.

Lemma Fix_output_clean_witness :
  In 0x0A (utf8.runes (Fix fixes_go.looksLikeMojibake unescapeNone normStable
                           [0x61; 0x01; 0x0D; 0x62]))
  /\ (0x0A = 0x09 \/ 0x0A = 0x0A \/ 0x20 <= 0x0A < 0x7F \/ 0x9F < 0x0A)
  /\ 0x0A <> 0x2028 /\ 0x0A <> 0x2029.
Proof.
  assert (I : In 0x0A (utf8.runes (Fix fixes_go.looksLikeMojibake unescapeNone normStable
                                       [0x61; 0x01; 0x0D; 0x62])))
    by (vm_compute; right; left; reflexivity).
  split; [exact I|].
  exact (Fix_output_clean fixes_go.looksLikeMojibake unescapeNone normStable
           [0x61; 0x01; 0x0D; 0x62] 0x0A normStable_inert I).
Defined.

Lemma IsValid_sound_witness :
  utf8.Valid (go "Hello") = true
  /\ forall r, In r (utf8.runes (go "Hello")) ->
               stripped r = false /\ r <> 0x0D /\ r <> 0x2028 /\ r <> 0x2029.
Proof.
  apply (IsValid_sound fixes_go.looksLikeMojibake unescapeNone normStable (go "Hello")
           normStable_keeps_Valid normStable_inert).
  vm_compute. reflexivity.
Defined.

Lemma HasReplacementChars_runes_witness :
  In 0xFFFD (utf8.runes [0x61; 0xEF; 0xBF; 0xBD]).
Proof.
  apply (proj1 (HasReplacementChars_runes [0x61; 0xEF; 0xBF; 0xBD])).
  vm_compute. reflexivity.
Defined.

Lemma HasReplacementChars_fixSurrogates_witness :
  HasReplacementChars (fixSurrogates [0x61; 0xFF]) = true.
Proof.
  apply (proj2 (HasReplacementChars_fixSurrogates [0x61; 0xFF])).
  vm_compute. reflexivity.
Defined.

Lemma AnalyzeString_entries_witness :
  IsProblematic (analyzeRune 0xC3) = true
  /\ In (Rune (analyzeRune 0xC3)) (utf8.runes (go "cafÃ©")).
Proof.
  assert (I : In (analyzeRune 0xC3) (AnalyzeString (go "cafÃ©")))
    by (vm_compute; left; reflexivity).
  pose proof (AnalyzeString_entries (go "cafÃ©") (analyzeRune 0xC3) I) as H.
  exact (conj (proj1 H) (proj1 (proj2 H))).
Defined.

Lemma AnalyzeString_invalid_witness :
  exists info, In info (AnalyzeString [0x61; 0xFF])
               /\ Rune info = 0xFFFD
               /\ Category info = go "replacement_char".
Proof.
  apply (AnalyzeString_invalid [0x61; 0xFF]). vm_compute. reflexivity.
Defined.

Lemma AnalyzeString_detector_witness :
  exists info, In info (AnalyzeString (go "cafÃ©"))
               /\ Category info = go "likely_mojibake"
               /\ IsProblematic info = true.
Proof.
  apply (AnalyzeString_detector (go "cafÃ©")). left. vm_compute. reflexivity.
Defined.

Lemma AnalyzeString_fixControlChars_witness :
  Category (analyzeRune 0xC3) <> go "control_C0"
  /\ Category (analyzeRune 0xC3) <> go "control_C1".
Proof.
  apply (AnalyzeString_fixControlChars [0x01; 0xC3; 0x83; 0xC2; 0x85] (analyzeRune 0xC3)).
  vm_compute. left. reflexivity.
Defined.

Lemma FixLines_fixed_witness :
  FixLines fixes_go.looksLikeMojibake unescapeNone normStable [0x61; 0x0A; 0x62]
  = [0x61; 0x0A; 0x62].
Proof.
  apply (FixLines_fixed fixes_go.looksLikeMojibake unescapeNone normStable
           [0x61; 0x0A; 0x62]).
  intros line Hl. vm_compute in Hl.
  destruct Hl as [<-|[<-|[]]]; vm_compute; reflexivity.
Defined.

(** The range visits the second key first; the lookup is the same. *)
Lemma FixMap_lookup_witness :
  mapLookup (go "a")
            (FixMapIn fixes_go.looksLikeMojibake unescapeNone normStable
                      [(go "b", go "x"); (go "a", go "cafÃ©")])
  = option_map (Fix fixes_go.looksLikeMojibake unescapeNone normStable)
               (mapLookup (go "a") [(go "a", go "cafÃ©"); (go "b", go "x")]).
Proof.
  apply (FixMap_lookup fixes_go.looksLikeMojibake unescapeNone normStable
           [(go "a", go "cafÃ©"); (go "b", go "x")]).
  - cbn [map fst]. constructor.
    + intros [H|[]]. vm_compute in H. discriminate H.
    + constructor; [intros []|constructor].
  - exists [(go "b", go "x"); (go "a", go "cafÃ©")]. split; [apply perm_swap|reflexivity].
Defined.




Lemma removeTerminalEscapes_spec_witness :
  removeTerminalEscapes ([0x1B; 0x5B] ++ [0x33; 0x31] ++ 0x6D :: go "red")
  = removeTerminalEscapes (go "red").
Proof.
  apply (proj2 (removeTerminalEscapes_spec (go "red")) [0x33; 0x31] 0x6D).
  - intros c [<-|[<-|[]]]; lia.
  - vm_compute. reflexivity.
Defined.

Lemma fixCurlyQuotes_unchanged_witness :
  fixCurlyQuotes (go "Hello") = go "Hello".
Proof.
  apply (fixCurlyQuotes_unchanged (go "Hello"));
    intros H; vm_compute in H;
    repeat (destruct H as [H|H]; [discriminate H|]); exact H.
Defined.

Lemma FixLines_CRLF_witness :
  FixLines fixes_go.looksLikeMojibake unescapeNone normStable
           ([0x61] ++ [0x0D; 0x0A] ++ [0x62])
  = [0x61] ++ [0x0A; 0x0A] ++ [0x62]
  /\ Fix fixes_go.looksLikeMojibake unescapeNone normStable
         ([0x61] ++ [0x0D; 0x0A] ++ [0x62])
     = [0x61] ++ [0x0A] ++ [0x62].
Proof.
  apply (FixLines_CRLF fixes_go.looksLikeMojibake unescapeNone normStable
           [0x61] [0x62] normStable_keeps_latin).
  - intros b [<-|[]]; lia.
  - intros b [<-|[]]; lia.
Defined.
